(** * Non-maximum suppression of bounding boxes

    A shallow embedding of
    [chainercv/links/utils/bbox/non_maximum_suppression.py]:
    the dispatcher [non_maximum_suppression], the NumPy selector
    [_non_maximum_suppression_cpu], the CuPy selector
    [_non_maximum_suppression_gpu] with its CUDA kernel [nms_kernel]
    and [devIoU], and the host-side launcher [_call_nms_kernel].

    Arithmetic is exact: coordinates, scores and the threshold are
    rationals ([Q]), so rounding is not part of the model.  What IEEE
    division does at a zero divisor is kept, because the selectors
    divide by a union area that degenerate boxes make zero: the quotient
    lives in [fval], and the comparison [>= thresh] is [fge].

    Array indices are [nat], but for the address the kernel computes
    into [dev_mask]: that one is a 32-bit [int] ([int32]), which wraps
    around from 370704 boxes on.  Errors raised by NumPy indexing, and
    device accesses outside an array, are values of [res]. *)

From Stdlib Require Import QArith Qminmax Lqa ZArith Lia ZifyNat.
From stdpp Require Import base list sorting.

#[local] Ltac Zify.zify_post_hook ::= Z.to_euclidean_division_equations.

(** ** Results and errors *)

Inductive error :=
  | IndexError        (* raised by NumPy indexing *)
  | DeviceOutOfRange. (* a device read or write outside its array *)

Inductive res (A : Type) :=
  | Ok (a : A)
  | Raise (e : error).
Arguments Ok {A} a.
Arguments Raise {A} e.

#[global] Instance res_ret : MRet res := fun A a => Ok a.
#[global] Instance res_bind : MBind res := fun A B f m =>
  match m with Ok a => f a | Raise e => Raise e end.

#[global] Instance res_fmap : FMap res := fun A B f m =>
  match m with Ok a => Ok (f a) | Raise e => Raise e end.

(** ** Numbers *)

(** The value of a floating-point division, rounding apart. *)
Inductive fval :=
  | Fin (q : Q)
  | PInf
  | NInf
  | NaN.

Definition Qltb (x y : Q) : bool := negb (Qle_bool y x).

(** [x / y]: a zero divisor gives an infinity of the sign of [x], and
    [0 / 0] is not a number. *)
Definition fdiv (x y : Q) : fval :=
  if Qeq_bool y 0 then
    if Qeq_bool x 0 then NaN
    else if Qltb 0 x then PInf else NInf
  else Fin (x / y).

(** [v >= t]: false on [NaN]. *)
Definition fge (v : fval) (t : Q) : bool :=
  match v with
  | Fin q => Qle_bool t q
  | PInf => true
  | NInf => false
  | NaN => false
  end.

(** [v < t]: false on [NaN]. *)
Definition flt (v : fval) (t : Q) : bool :=
  match v with
  | Fin q => Qltb q t
  | PInf => false
  | NInf => true
  | NaN => false
  end.

(** ** Boxes: a row of the [(R, 4)] array *)

Record box := Box { x_min : Q; y_min : Q; x_max : Q; y_max : Q }.

#[global] Instance box_inhabited : Inhabited box := populate (Box 0 0 0 0).
#[global] Instance Q_inhabited : Inhabited Q := populate 0%Q.

(** The invariant the data model asks of a box; the code never checks it. *)
Definition well_formed (b : box) : Prop :=
  (x_min b <= x_max b)%Q ∧ (y_min b <= y_max b)%Q.

(** ** NumPy indexing *)

(** [a[i]] for an integer [i]. *)
Definition index_int {A} (a : list A) (i : nat) : res A :=
  match a !! i with
  | Some x => Ok x
  | None => Raise IndexError
  end.

(** [a[idx]] for an integer array [idx]. *)
Definition index_array {A} (a : list A) (idx : list nat) : res (list A) :=
  mapM (index_int a) idx.

(** The rows of [a] at which [m] is true. *)
Fixpoint compress {A} (m : list bool) (a : list A) : list A :=
  match m, a with
  | true :: m', x :: a' => x :: compress m' a'
  | false :: m', _ :: a' => compress m' a'
  | _, _ => []
  end.

(** [a[m]] for a boolean array [m]: NumPy raises [IndexError] when the
    lengths differ. *)
Definition index_bool {A} (a : list A) (m : list bool) : res (list A) :=
  if decide (length a = length m) then Ok (compress m a)
  else Raise IndexError.

(** [np.where(m)[0]]. *)
Definition where_ (m : list bool) : list nat :=
  compress m (seq 0 (length m)).

(** [np.count_nonzero(m)]. *)
Definition count_nonzero (m : list bool) : nat :=
  length (filter (λ b, b = true) m).

(** [enumerate(a)]. *)
Definition enumerate {A} (a : list A) : list (nat * A) :=
  imap pair a.

(** ** [argsort]

    [score.argsort()] sorts the indices by ascending score.  NumPy's
    default kind sorts short arrays by insertion, which keeps equal
    scores in index order; that is the sort modelled here. *)

Fixpoint insert_by (x : nat * Q) (l : list (nat * Q)) : list (nat * Q) :=
  match l with
  | [] => [x]
  | y :: l' =>
      if Qle_bool (snd x) (snd y) then x :: l
      else y :: insert_by x l'
  end.

Definition argsort (score : list Q) : list nat :=
  fst <$> foldr insert_by [] (enumerate score).

(** [score.argsort()[::-1]]. *)
Definition score_order (score : list Q) : list nat :=
  reverse (argsort score).

(** ** The sequential selector *)

(** [np.prod(bbox[:, 2:] - bbox[:, :2], axis=1)], one row. *)
Definition box_area (b : box) : Q :=
  ((x_max b - x_min b) * (y_max b - y_min b))%Q.

(** Lines 81 to 83 for one selected row [s]:
    [lt = maximum(b[:2], s[:2])], [rb = minimum(b[2:], s[2:])],
    [prod(rb - lt) * (lt < rb).all()]. *)
Definition cpu_inter (b s : box) : Q :=
  let lt_x := Qmax (x_min b) (x_min s) in
  let lt_y := Qmax (y_min b) (y_min s) in
  let rb_x := Qmin (x_max b) (x_max s) in
  let rb_y := Qmin (y_max b) (y_max s) in
  (((rb_x - lt_x) * (rb_y - lt_y))
   * (if Qltb lt_x rb_x && Qltb lt_y rb_y then 1 else 0))%Q.

(** Line 85: [area / (bbox_area[i] + bbox_area[selec] - area)]. *)
Definition jaccard (area_i area_s inter : Q) : fval :=
  fdiv inter (area_i + area_s - inter)%Q.

(** [limit is not None and np.count_nonzero(selec) >= limit]. *)
Definition limit_reached (limit : option Z) (selec : list bool) : bool :=
  match limit with
  | Some l => (l <=? Z.of_nat (count_nonzero selec))%Z
  | None => false
  end.

(** The body of the loop at lines 80 to 91 says whether box [i] is
    suppressed by the rows selected so far. *)
Definition cpu_suppressed (bbox : list box) (bbox_area : list Q) (thresh : Q)
    (selec : list bool) (i : nat) (b : box) : res bool :=
  sel ← index_bool bbox selec;
  let area := cpu_inter b <$> sel in
  area_i ← index_int bbox_area i;
  area_sel ← index_bool bbox_area selec;
  let jac := zip_with (λ a s, jaccard area_i s a) area area_sel in
  mret (existsb (λ j, fge j thresh) jac).

(** The loop over [enumerate(bbox)]; [break] ends it. *)
Fixpoint cpu_loop (bbox : list box) (bbox_area : list Q) (thresh : Q)
    (limit : option Z) (todo : list (nat * box)) (selec : list bool)
    : res (list bool) :=
  match todo with
  | [] => Ok selec
  | (i, b) :: todo' =>
      sup ← cpu_suppressed bbox bbox_area thresh selec i b;
      if (sup : bool) then cpu_loop bbox bbox_area thresh limit todo' selec
      else
        let selec' := <[i:=true]> selec in
        if limit_reached limit selec' then Ok selec'
        else cpu_loop bbox bbox_area thresh limit todo' selec'
  end.

Definition _non_maximum_suppression_cpu (bbox : list box) (thresh : Q)
    (score : option (list Q)) (limit : option Z) : res (list nat) :=
  if decide (length bbox = 0) then Ok []
  else
    let bbox_area := box_area <$> bbox in
    let order := score_order <$> score in
    bbox ← match order with
           | Some o => index_array bbox o
           | None => Ok bbox
           end;
    let selec := replicate (length bbox) false in
    selec ← cpu_loop bbox bbox_area thresh limit (enumerate bbox) selec;
    let selec := where_ selec in
    match order with
    | Some o => index_array o selec
    | None => Ok selec
    end.

(** ** The parallel selector: the device code *)

Definition threadsPerBlock : nat := 64.

(** [#define DIVUP(m,n) ((m) / (n) + ((m) % (n) > 0))]. *)
Definition DIVUP (m n : nat) : nat :=
  m / n + (if 0 <? m mod n then 1 else 0).

(** Lines 129 to 132 of [devIoU]: the intersection area [interS]. *)
Definition dev_interS (a b : box) : Q :=
  let left := Qmax (x_min a) (x_min b) in
  let right := Qmin (x_max a) (x_max b) in
  let top := Qmax (y_min a) (y_min b) in
  let bottom := Qmin (y_max a) (y_max b) in
  let width := Qmax (right - left) 0 in
  let height := Qmax (bottom - top) 0 in
  (width * height)%Q.

Definition devIoU (a b : box) : fval :=
  let interS := dev_interS a b in
  let Sa := ((x_max a - x_min a) * (y_max a - y_min a))%Q in
  let Sb := ((x_max b - x_min b) * (y_max b - y_min b))%Q in
  fdiv interS (Sa + Sb - interS)%Q.

(** Device memory is not bounds-checked; the model stops at a read or a
    write outside the array. *)
Definition dev_load {A} (a : list A) (i : nat) : res A :=
  match a !! i with
  | Some x => Ok x
  | None => Raise DeviceOutOfRange
  end.

Definition dev_store {A} (a : list A) (i : Z) (x : A) : res (list A) :=
  if decide (0 ≤ i < Z.of_nat (length a))%Z then Ok (<[Z.to_nat i:=x]> a)
  else Raise DeviceOutOfRange.

(** The kernel's [int] has 32 bits: a sum or a product that leaves
    [-2^31 .. 2^31 - 1] wraps around. *)
Definition int32 (z : Z) : Z :=
  ((z + 2147483648) mod 4294967296 - 2147483648)%Z.

(** A loop whose body may stop the run. *)
Fixpoint for_each {A St} (body : A → St → res St) (l : list A) (s : St)
    : res St :=
  match l with
  | [] => Ok s
  | x :: l' => s' ← body x s; for_each body l' s'
  end.

(** Lines 153 to 164: the threads below [col_size] stage the column
    tile's boxes in shared memory, then all threads meet at the barrier. *)
Definition load_block_boxes (n_bbox : nat) (dev_bbox : list box)
    (col_start : nat) : res (list box) :=
  let col_size :=
    Nat.min (n_bbox - col_start * threadsPerBlock) threadsPerBlock in
  mapM (λ t, dev_load dev_bbox (threadsPerBlock * col_start + t))
       (seq 0 col_size).

(** One turn of the loop at line 175; [1ULL << i] has [i < 64]. *)
Definition mask_step (thresh : Q) (dev_bbox : list box) (cur_box_idx : nat)
    (block_boxes : list box) (i : nat) (t : Z) : res Z :=
  cur_box ← dev_load dev_bbox cur_box_idx;
  b ← dev_load block_boxes i;
  mret (if fge (devIoU cur_box b) thresh
        then Z.lor t (Z.shiftl 1 (Z.of_nat i)) else t).

(** Lines 166 to 182 for the thread [threadIdx_x] of the block
    [(col_start, row_start)].  The address of the word in [dev_mask],
    [cur_box_idx * col_blocks + col_start] at line 181, is computed in
    [int] and grows with the square of [n_bbox]: it is the one [int] of
    the thread that leaves 32 bits first, and it is modelled with its
    wrap-around. *)
Definition nms_kernel_thread (n_bbox : nat) (thresh : Q) (dev_bbox : list box)
    (row_start col_start : nat) (block_boxes : list box)
    (threadIdx_x : nat) (dev_mask : list Z) : res (list Z) :=
  let row_size :=
    Nat.min (n_bbox - row_start * threadsPerBlock) threadsPerBlock in
  let col_size :=
    Nat.min (n_bbox - col_start * threadsPerBlock) threadsPerBlock in
  if threadIdx_x <? row_size then
    let cur_box_idx := threadsPerBlock * row_start + threadIdx_x in
    let start := if row_start =? col_start then threadIdx_x + 1 else 0 in
    t ← for_each (mask_step thresh dev_bbox cur_box_idx block_boxes)
                 (seq start (col_size - start)) 0%Z;
    let col_blocks := DIVUP n_bbox threadsPerBlock in
    dev_store dev_mask
              (int32 (int32 (Z.of_nat cur_box_idx * Z.of_nat col_blocks)
                      + Z.of_nat col_start)) t
  else Ok dev_mask.

(** One block of [threads] threads. *)
Definition nms_kernel_block (threads : nat) (n_bbox : nat) (thresh : Q)
    (dev_bbox : list box) (row_start col_start : nat) (dev_mask : list Z)
    : res (list Z) :=
  block_boxes ← load_block_boxes n_bbox dev_bbox col_start;
  for_each (nms_kernel_thread n_bbox thresh dev_bbox row_start col_start
              block_boxes)
           (seq 0 threads) dev_mask.

(** [kern(blocks, threads, args=...)] on a grid of [blocks_x] by
    [blocks_y] blocks.  Every word of [dev_mask] is written by one thread
    only, so the blocks are run one after the other. *)
Definition nms_kernel (blocks_x blocks_y threads : nat) (n_bbox : nat)
    (thresh : Q) (dev_bbox : list box) (dev_mask : list Z) : res (list Z) :=
  for_each (λ row_start,
    for_each (λ col_start,
      nms_kernel_block threads n_bbox thresh dev_bbox row_start col_start)
      (seq 0 blocks_x))
    (seq 0 blocks_y) dev_mask.

(** ** The mask reducer *)

(** Modelled from the spec: [_nms_gpu_post], imported from
    [chainercv.links.utils.bbox._nms_gpu_post], is not among the sources.
    The spec's mask reducer keeps one word of "remaining" bits per tile,
    all ones at the start; it scans the boxes in priority order, skips a
    box whose bit is unset, accepts any other, stops when the limit is
    reached, and clears from every word the bits that the accepted box's
    mask row marks. *)
Fixpoint reduce_loop (mask : list Z) (TILE col_blocks : nat)
    (limit : option Z) (todo : list nat) (remaining : list Z)
    (selection : list nat) : list nat :=
  match todo with
  | [] => selection
  | i :: todo' =>
      let tile := i / TILE in
      let bit := i mod TILE in
      if Z.testbit (remaining !!! tile) (Z.of_nat bit) then
        let selection' := selection ++ [i] in
        if match limit with
           | Some l => (l <=? Z.of_nat (length selection'))%Z
           | None => false
           end
        then selection'
        else
          let remaining' :=
            imap (λ w r, Z.land r (Z.lnot (mask !!! (i * col_blocks + w))))
                 remaining in
          reduce_loop mask TILE col_blocks limit todo' remaining' selection'
      else reduce_loop mask TILE col_blocks limit todo' remaining selection
  end.

(** Modelled from the spec: the contract
    [reduce(mask, R, TILE, col_blocks, limit?) → (selected_indices, count)]
    of the mask reducer. *)
Definition _nms_gpu_post (mask : list Z) (n_bbox TILE col_blocks : nat)
    (limit : option Z) : list nat * nat :=
  let selection :=
    reduce_loop mask TILE col_blocks limit (seq 0 n_bbox)
                (replicate col_blocks (Z.ones (Z.of_nat TILE))) [] in
  (selection, length selection).

(** ** The parallel selector: the host code *)

(** [np.ceil(n_bbox / threads_per_block)]. *)
Definition ceil_div (n d : nat) : nat := (n + (d - 1)) / d.

Definition _call_nms_kernel (bbox : list box) (n_bbox : nat) (thresh : Q)
    : res (list nat * nat) :=
  let threads_per_block := 64 in
  let col_blocks := ceil_div n_bbox threads_per_block in
  let mask_dev := replicate (n_bbox * col_blocks) 0%Z in
  mask_host ← nms_kernel col_blocks col_blocks threads_per_block
                         n_bbox thresh bbox mask_dev;
  mret (_nms_gpu_post mask_host n_bbox threads_per_block col_blocks None).

(** CuPy's [a[idx]]: an index outside the array wraps around. *)
Definition cupy_index {A} (a : list A) (idx : list nat) : res (list A) :=
  mapM (λ i, dev_load a (i mod length a)) idx.

(** Python's [l[:limit]]: a negative [limit] counts from the end. *)
Definition slice_to {A} (limit : Z) (l : list A) : list A :=
  if (0 <=? limit)%Z then take (Z.to_nat limit) l
  else take (length l - Z.to_nat (- limit)) l.

Definition _non_maximum_suppression_gpu (bbox : list box) (thresh : Q)
    (score : option (list Q)) (limit : option Z) : res (list nat) :=
  if decide (length bbox = 0) then Ok []
  else
    let n_bbox := length bbox in
    let order := match score with
                 | Some s => score_order s
                 | None => seq 0 n_bbox
                 end in
    sorted_bbox ← cupy_index bbox order;
    '(selec, n_selec) ← _call_nms_kernel sorted_bbox n_bbox thresh;
    let selec := take n_selec selec in
    selec ← cupy_index order selec;
    mret (match limit with
          | Some l => slice_to l selec
          | None => selec
          end).

(** ** The dispatcher *)

(** [cuda.get_array_module(bbox)]. *)
Inductive array_module := numpy | cupy.

Definition non_maximum_suppression (xp : array_module) (bbox : list box)
    (thresh : Q) (score : option (list Q)) (limit : option Z)
    : res (list nat) :=
  match xp with
  | numpy => _non_maximum_suppression_cpu bbox thresh score limit
  | cupy => _non_maximum_suppression_gpu bbox thresh score limit
  end.

(** ** Vocabulary of the properties *)

(** The overlap bit of the data model: [IoU(a, b) >= thresh]. *)
Definition overlaps (thresh : Q) (a b : box) : bool :=
  fge (devIoU a b) thresh.

(** Two boxes that share no interior point. *)
Definition disjoint (a b : box) : Prop :=
  (x_max a <= x_min b)%Q ∨ (x_max b <= x_min a)%Q ∨
  (y_max a <= y_min b)%Q ∨ (y_max b <= y_min a)%Q.

(** Equality of quotients, as rationals. *)
Definition fval_eq (u v : fval) : Prop :=
  match u, v with
  | Fin p, Fin q => (p == q)%Q
  | PInf, PInf | NInf, NInf | NaN, NaN => True
  | _, _ => False
  end.

(** Two coincident unit boxes and a large box far away, scored so that
    the large box comes first and the unit boxes follow. *)
Definition skewed_boxes : list box :=
  [Box 0 0 1 1; Box 0 0 1 1; Box 100 100 200 200].
Definition skewed_scores : list Q := [5 # 10; 1 # 10; 9 # 10]%Q.

(** Among equal scores the order keeps the original index order. *)
Definition ties_keep_index_order (score : list Q) (order : list nat) : Prop :=
  ∀ p q i j si sj,
    order !! p = Some i → order !! q = Some j →
    score !! i = Some si → score !! j = Some sj →
    (si == sj)%Q → i < j → p < q.

(** [limit] is given and [n] accepted boxes reach it. *)
Definition limit_hit (limit : option Z) (n : nat) : bool :=
  match limit with
  | Some l => (l <=? Z.of_nat n)%Z
  | None => false
  end.

(** Greedy selection over positions: [ov k i] says that the accepted
    position [k] suppresses the candidate [i]; [acc] holds the accepted
    positions in the order of their acceptance. *)
Fixpoint greedy (ov : nat → nat → bool) (limit : option Z)
    (todo : list nat) (acc : list nat) : list nat :=
  match todo with
  | [] => acc
  | i :: todo' =>
      if existsb (λ k, ov k i) acc then greedy ov limit todo' acc
      else
        let acc' := acc ++ [i] in
        if limit_hit limit (length acc') then acc'
        else greedy ov limit todo' acc'
  end.

(** The suppression test of the sequential selector between the
    positions [k] (selected) and [i] (candidate) of the reordered boxes,
    with the areas it reads from [bbox_area]. *)
Definition cpu_ov (bbox : list box) (bbox_area : list Q) (thresh : Q)
    (k i : nat) : bool :=
  fge (jaccard (bbox_area !!! i) (bbox_area !!! k)
               (cpu_inter (bbox !!! i) (bbox !!! k))) thresh.

(** A box is in the result exactly when no box of the result before it
    overlaps it at or above the threshold (no scores: priority is the
    index). *)
Definition selected_iff_unsuppressed (bbox : list box) (thresh : Q)
    (result : list nat) : Prop :=
  ∀ i, i < length bbox →
    (i ∈ result ↔
     ∀ j, j ∈ result → j < i →
          overlaps thresh (bbox !!! j) (bbox !!! i) = false).

(** Two boxes far apart. *)
Definition apart_boxes : list box := [Box 0 0 10 10; Box 20 20 30 30].

(** The word a thread builds from [t] by setting the bit [i] for each
    [i] of [cols] that [ov] marks. *)
Definition tile_word (ov : nat → bool) (cols : list nat) (t : Z) : Z :=
  foldl (λ t i, if ov i then Z.lor t (Z.shiftl 1 (Z.of_nat i)) else t) t cols.

(** The word the kernel leaves at row [r], column tile [c]. *)
Definition mask_word (n_bbox : nat) (thresh : Q) (bbox : list box)
    (r c : nat) : Z :=
  let col_size := Nat.min (n_bbox - c * threadsPerBlock) threadsPerBlock in
  let start := if r / threadsPerBlock =? c
               then r mod threadsPerBlock + 1 else 0 in
  tile_word (λ i, overlaps thresh (bbox !!! r)
                           (bbox !!! (threadsPerBlock * c + i)))
            (seq start (col_size - start)) 0.

(** What bit [k] of the word at row [r], column tile [col_tile] says:
    the box [col_tile * TILE + k] exists, it comes strictly after [r]
    when it shares [r]'s tile, and the two boxes overlap at or above the
    threshold. *)
Definition mask_bit (n_bbox : nat) (thresh : Q) (bbox : list box)
    (r col_tile k : nat) : bool :=
  let c := col_tile * threadsPerBlock + k in
  (k <? threadsPerBlock) && (c <? n_bbox) &&
  (if r / threadsPerBlock =? col_tile then r mod threadsPerBlock <? k
   else true) &&
  overlaps thresh (bbox !!! r) (bbox !!! c).

(** [dev_mask], [n_bbox] rows of [ceil(n_bbox / 64)] words, has fewer
    than [2^31] words, so that the kernel's [int] holds every address of
    it. *)
Definition mask_fits_int (n_bbox : nat) : Prop :=
  (Z.of_nat n_bbox * Z.of_nat (ceil_div n_bbox 64) < 2147483648)%Z.

(** 370704 unit boxes, the least number of boxes whose mask has [2^31]
    words or more. *)
Definition crowd_boxes : list box :=
  replicate (Z.to_nat 370704) (Box 0 0 1 1).

(** The kernel has run the blocks before [(x, y)] and, of that block,
    the threads below [t]. *)
Definition done_before (y x t : nat) (r c : nat) : Prop :=
  r / threadsPerBlock < y ∨
  (r / threadsPerBlock = y ∧ (c < x ∨ (c = x ∧ r mod threadsPerBlock < t))).

#[global] Instance done_before_dec y x t r c :
  Decision (done_before y x t r c).
Proof. unfold done_before. apply _. Defined.

(** The mask holds the words of the threads that have run and zero
    elsewhere. *)
Definition kernel_inv (n_bbox : nat) (thresh : Q) (bbox : list box)
    (col_blocks : nat) (y x t : nat) (dev_mask : list Z) : Prop :=
  length dev_mask = n_bbox * col_blocks ∧
  ∀ r c, r < n_bbox → c < col_blocks →
    dev_mask !! (r * col_blocks + c)
    = Some (if decide (done_before y x t r c)
            then mask_word n_bbox thresh bbox r c else 0%Z).

(** The keys the ascending sort compares: ascending score, and ascending
    index among equal scores. *)
Definition key_lt (x y : nat * Q) : Prop :=
  (snd x < snd y)%Q ∨ ((snd x == snd y)%Q ∧ fst x < fst y).

(** The column tile [x] as a block stages it in [block_boxes]. *)
Definition staged (bbox : list box) (x : nat) : list box :=
  (λ t, bbox !!! (threadsPerBlock * x + t))
    <$> seq 0 (Nat.min (length bbox - x * threadsPerBlock) threadsPerBlock).

(** The order in which the selectors scan the boxes:
    [score.argsort()[::-1]], or the index order when no scores are
    given. *)
Definition priority_order (bbox : list box) (score : option (list Q))
    : list nat :=
  match score with
  | Some s => score_order s
  | None => seq 0 (length bbox)
  end.

(** The scores, when given, are as many as the boxes. *)
Definition scores_aligned (bbox : list box) (score : option (list Q)) : Prop :=
  match score with
  | Some s => length s = length bbox
  | None => True
  end.

(** No two boxes of the list share an interior point. *)
Fixpoint pairwise_disjoint (bbox : list box) : Prop :=
  match bbox with
  | [] => True
  | b :: bbox' => Forall (disjoint b) bbox' ∧ pairwise_disjoint bbox'
  end.

(** An IoU that is a number lies between 0 and 1; the only other value
    allowed is [NaN]. *)
Definition unit_or_nan (v : fval) : Prop :=
  match v with
  | Fin q => (0 <= q <= 1)%Q
  | NaN => True
  | PInf | NInf => False
  end.

(** * Properties *)

(** ** The scenarios of the specification *)

Example cpu_scenario_unscored :
  _non_maximum_suppression_cpu
    [Box 0 0 10 10; Box 1 1 11 11; Box 20 20 30 30] (1 # 2) None None
  = Ok [0; 2].
Proof. vm_compute. reflexivity. Qed.

Example cpu_scenario_scored :
  _non_maximum_suppression_cpu
    [Box 0 0 10 10; Box 1 1 11 11; Box 20 20 30 30] (1 # 2)
    (Some [1 # 10; 9 # 10; 5 # 10]%Q) None
  = Ok [1; 2].
Proof. vm_compute. reflexivity. Qed.

Example cpu_scenario_limit :
  _non_maximum_suppression_cpu
    [Box 0 0 10 10; Box 1 1 11 11; Box 20 20 30 30] (1 # 2)
    (Some [1 # 10; 9 # 10; 5 # 10]%Q) (Some 1%Z)
  = Ok [1].
Proof. vm_compute. reflexivity. Qed.

Example gpu_scenario_unscored :
  _non_maximum_suppression_gpu
    [Box 0 0 10 10; Box 1 1 11 11; Box 20 20 30 30] (1 # 2) None None
  = Ok [0; 2].
Proof. vm_compute. reflexivity. Qed.

Example gpu_scenario_scored :
  _non_maximum_suppression_gpu
    [Box 0 0 10 10; Box 1 1 11 11; Box 20 20 30 30] (1 # 2)
    (Some [1 # 10; 9 # 10; 5 # 10]%Q) (Some 1%Z)
  = Ok [1].
Proof. vm_compute. reflexivity. Qed.

(** ** Comparisons and quotients *)

Lemma Qltb_lt (x y : Q) : Qltb x y = true ↔ (x < y)%Q.
Proof.
  unfold Qltb. rewrite negb_true_iff, <- not_true_iff_false, Qle_bool_iff.
  split; [apply Qnot_le_lt | apply Qlt_not_le].
Qed.

Lemma Qltb_ge (x y : Q) : Qltb x y = false ↔ (y <= x)%Q.
Proof. unfold Qltb. by rewrite negb_false_iff, Qle_bool_iff. Qed.

Lemma Qeq_bool_false (x y : Q) : Qeq_bool x y = false ↔ ¬ (x == y)%Q.
Proof. by rewrite <- not_true_iff_false, Qeq_bool_iff. Qed.

#[global] Instance fval_eq_equiv : Equivalence fval_eq.
Proof.
  split.
  - intros []; simpl; [reflexivity | done..].
  - intros [] []; simpl; done.
  - intros [] [] []; simpl; first [done | intros ??; by etrans].
Qed.

#[global] Instance Qltb_proper : Proper (Qeq ==> Qeq ==> eq) Qltb.
Proof.
  intros x x' Hx y y' Hy.
  destruct (Qltb x y) eqn:E; symmetry.
  - apply Qltb_lt. apply Qltb_lt in E. by rewrite <- Hx, <- Hy.
  - apply Qltb_ge. apply Qltb_ge in E. by rewrite <- Hx, <- Hy.
Qed.

#[global] Instance Qeq_bool_proper : Proper (Qeq ==> Qeq ==> eq) Qeq_bool.
Proof.
  intros x x' Hx y y' Hy.
  destruct (Qeq_bool x y) eqn:E; symmetry.
  - apply Qeq_bool_iff. apply Qeq_bool_iff in E. by rewrite <- Hx, <- Hy.
  - apply Qeq_bool_false. apply Qeq_bool_false in E. by rewrite <- Hx, <- Hy.
Qed.

#[global] Instance Qle_bool_proper : Proper (Qeq ==> Qeq ==> eq) Qle_bool.
Proof.
  intros x x' Hx y y' Hy.
  destruct (Qle_bool x y) eqn:E; symmetry.
  - apply Qle_bool_iff. apply Qle_bool_iff in E. by rewrite <- Hx, <- Hy.
  - apply not_true_iff_false. apply not_true_iff_false in E.
    rewrite Qle_bool_iff in *. by rewrite <- Hx, <- Hy.
Qed.

#[global] Instance fdiv_proper : Proper (Qeq ==> Qeq ==> fval_eq) fdiv.
Proof.
  intros x x' Hx y y' Hy. unfold fdiv.
  rewrite <- (Qeq_bool_proper _ _ Hy 0%Q 0%Q (reflexivity _)).
  rewrite <- (Qeq_bool_proper _ _ Hx 0%Q 0%Q (reflexivity _)).
  rewrite <- (Qltb_proper 0%Q 0%Q (reflexivity _) _ _ Hx).
  destruct (Qeq_bool y 0).
  { destruct (Qeq_bool x 0); [done|]. by destruct (Qltb 0 x). }
  simpl. by rewrite Hx, Hy.
Qed.

#[global] Instance fge_proper : Proper (fval_eq ==> Qeq ==> eq) fge.
Proof.
  intros [] [] Hv t t' Ht; simpl in *; try done.
  by apply Qle_bool_proper.
Qed.

(** ** The two intersection formulas *)

Lemma Qmax_0_pos (w : Q) : (0 < w)%Q → (Qmax w 0 == w)%Q.
Proof. intros. apply Q.max_l. lra. Qed.

Lemma Qmax_0_nonpos (w : Q) : (w <= 0)%Q → (Qmax w 0 == 0)%Q.
Proof. intros. by apply Q.max_r. Qed.

(** The masked product and the clamped product are the same number, for
    any two boxes. *)
Lemma cpu_inter_dev_interS (a b : box) : (cpu_inter a b == dev_interS a b)%Q.
Proof.
  unfold cpu_inter, dev_interS.
  set (lx := Qmax (x_min a) (x_min b)). set (rx := Qmin (x_max a) (x_max b)).
  set (ly := Qmax (y_min a) (y_min b)). set (ry := Qmin (y_max a) (y_max b)).
  destruct (Qltb lx rx) eqn:Ex; simpl.
  - apply Qltb_lt in Ex. rewrite (Qmax_0_pos (rx - lx)) by lra.
    destruct (Qltb ly ry) eqn:Ey.
    + apply Qltb_lt in Ey. rewrite (Qmax_0_pos (ry - ly)) by lra. ring.
    + apply Qltb_ge in Ey. rewrite (Qmax_0_nonpos (ry - ly)) by lra. ring.
  - apply Qltb_ge in Ex. rewrite (Qmax_0_nonpos (rx - lx)) by lra. ring.
Qed.


Lemma jaccard_devIoU (a b : box) :
  fval_eq (jaccard (box_area a) (box_area b) (cpu_inter a b)) (devIoU a b).
Proof.
  unfold jaccard, devIoU, box_area.
  apply fdiv_proper; [apply cpu_inter_dev_interS|].
  by rewrite cpu_inter_dev_interS.
Qed.



(** ** Empty input *)

(** C9: with no boxes the dispatcher returns the empty index sequence
    and raises nothing, whatever the array module, the threshold, the
    scores and the limit. *)
Theorem empty_input (xp : array_module) (thresh : Q)
    (score : option (list Q)) (limit : option Z) :
  non_maximum_suppression xp [] thresh score limit = Ok [].
Proof. by destruct xp. Qed.

(** ** The priority order *)

Lemma key_lt_le (x y : nat * Q) : key_lt x y → (snd x <= snd y)%Q.
Proof. intros [?|[? _]]; lra. Qed.

Lemma insert_by_Permutation (x : nat * Q) (l : list (nat * Q)) :
  insert_by x l ≡ₚ x :: l.
Proof.
  induction l as [|y l IH]; simpl; [done|].
  destruct (Qle_bool (snd x) (snd y)); [done|].
  by rewrite IH, Permutation_swap.
Qed.

Lemma insert_by_sorted (x : nat * Q) (l : list (nat * Q)) :
  StronglySorted key_lt l →
  Forall (λ y, fst x < fst y) l →
  StronglySorted key_lt (insert_by x l).
Proof.
  induction l as [|y l IH]; simpl; intros Hs Hx.
  { repeat constructor. }
  apply StronglySorted_cons in Hs as [Hy Hs].
  apply Forall_cons in Hx as [Hxy Hx].
  destruct (Qle_bool (snd x) (snd y)) eqn:E.
  - apply Qle_bool_iff in E.
    assert (key_lt x y) as Hk.
    { destruct (Qle_lt_or_eq _ _ E); [by left | by right]. }
    apply StronglySorted_cons. split.
    + constructor; [done|].
      rewrite Forall_forall in Hy, Hx |- *. intros z Hz.
      pose proof (key_lt_le _ _ (Hy z Hz)) as Hyz.
      destruct (Qle_lt_or_eq (snd x) (snd z)) as [?|?]; [lra | by left |].
      right. split; [done|]. by apply Hx.
    + by apply StronglySorted_cons.
  - apply StronglySorted_cons. split; [|by apply IH].
    rewrite insert_by_Permutation. constructor; [|done].
    left. apply Qltb_lt. unfold Qltb. by rewrite E.
Qed.

Lemma sorted_enumerate (k : nat) (score : list Q) :
  let keyed := imap (λ i x, (k + i, x)) score in
  let sorted := foldr insert_by [] keyed in
  sorted ≡ₚ keyed ∧ StronglySorted key_lt sorted.
Proof.
  revert k. induction score as [|x score IH]; intros k; simpl.
  { split; [done | constructor]. }
  assert (imap ((λ i x, (k + i, x)) ∘ S) score
          = imap (λ i x, (S k + i, x)) score) as ->.
  { apply imap_ext. intros; simpl. f_equal. lia. }
  destruct (IH (S k)) as [Hp Hs]. split.
  - by rewrite insert_by_Permutation, Hp.
  - apply insert_by_sorted; [done|].
    rewrite Hp. apply Forall_forall. intros y Hy.
    apply elem_of_lookup_imap in Hy as (i & z & -> & _). simpl. lia.
Qed.

Lemma argsort_sorted (score : list Q) :
  let sorted := foldr insert_by [] (enumerate score) in
  sorted ≡ₚ enumerate score ∧ StronglySorted key_lt sorted.
Proof. apply (sorted_enumerate 0). Qed.

Lemma argsort_Permutation (score : list Q) :
  argsort score ≡ₚ seq 0 (length score).
Proof.
  unfold argsort. destruct (argsort_sorted score) as [Hp _]; simpl in Hp.
  etrans; [apply fmap_Permutation, Hp|].
  unfold enumerate. rewrite fmap_imap.
  rewrite <- (list_fmap_id (seq 0 (length score))).
  by rewrite <- (imap_seq_0 score id).
Qed.

Lemma score_order_Permutation (score : list Q) :
  score_order score ≡ₚ seq 0 (length score).
Proof.
  unfold score_order. by rewrite reverse_Permutation, argsort_Permutation.
Qed.

Lemma length_score_order (score : list Q) :
  length (score_order score) = length score.
Proof. by rewrite score_order_Permutation, length_seq. Qed.

Lemma StronglySorted_lookup {A} (R : relation A) (l : list A) p q x y :
  StronglySorted R l → p < q → l !! p = Some x → l !! q = Some y → R x y.
Proof.
  intros Hs Hpq Hp Hq.
  rewrite <- (take_drop q l) in Hs.
  apply (StronglySorted_app_1_elem_of _ _ _ x y) in Hs; [done|..].
  - apply list_elem_of_lookup. exists p. by rewrite lookup_take_lt.
  - apply list_elem_of_lookup. exists 0. by rewrite lookup_drop, Nat.add_0_r.
Qed.

(** Of two positions of the order, the earlier holds the higher key. *)
Lemma score_order_key_lt (score : list Q) p q i j si sj :
  p < q →
  score_order score !! p = Some i → score_order score !! q = Some j →
  score !! i = Some si → score !! j = Some sj →
  key_lt (j, sj) (i, si).
Proof.
  intros Hpq Hp Hq Hi Hj.
  destruct (argsort_sorted score) as [Hperm Hs]; simpl in *.
  unfold score_order, argsort in Hp, Hq.
  set (sorted := foldr insert_by [] (enumerate score)) in *.
  apply reverse_lookup_Some in Hp as [Hp Hlp], Hq as [Hq Hlq].
  rewrite length_fmap in *.
  rewrite list_lookup_fmap in Hp, Hq.
  destruct (sorted !! (length sorted - S p)) as [[i' si']|] eqn:Ep; [|done].
  destruct (sorted !! (length sorted - S q)) as [[j' sj']|] eqn:Eq; [|done].
  simpl in Hp, Hq. simplify_eq.
  assert (∀ n k x, sorted !! n = Some (k, x) → score !! k = Some x) as Hin.
  { intros n k x Hn. apply list_elem_of_lookup_2 in Hn.
    rewrite Hperm in Hn.
    apply elem_of_lookup_imap in Hn as (? & ? & ? & ?). by simplify_eq. }
  apply Hin in Ep as Ei. apply Hin in Eq as Ej. simplify_eq.
  eapply (StronglySorted_lookup key_lt sorted); [done| |done..]. lia.
Qed.

(** C8, as the code has it: the priority order is a permutation of
    [0, R) by descending score, and boxes of equal score come in
    descending index order, the reverse of their original order. *)
Theorem score_order_descending (score : list Q) :
  score_order score ≡ₚ seq 0 (length score) ∧
  ∀ p q i j si sj,
    p < q →
    score_order score !! p = Some i → score_order score !! q = Some j →
    score !! i = Some si → score !! j = Some sj →
    (sj <= si)%Q ∧ ((si == sj)%Q → j < i).
Proof.
  split; [apply score_order_Permutation|].
  intros p q i j si sj Hpq Hp Hq Hi Hj.
  destruct (score_order_key_lt score p q i j si sj) as [H|[H1 H2]];
    try done; simpl in *.
  - split; [lra|]. intros. lra.
  - split; [lra | done].
Qed.

(** C8, as stated, fails on two equal scores: index 1 comes first. *)
Lemma ties_reversed :
  score_order [1; 1]%Q = [1; 0] ∧
  ¬ ties_keep_index_order [1; 1]%Q (score_order [1; 1]%Q).
Proof.
  split; [reflexivity|]. intros H.
  specialize (H 1 0 0 1 1%Q 1%Q eq_refl eq_refl eq_refl eq_refl).
  assert (1 < 0); [|lia]. apply H; [reflexivity | lia].
Qed.

(** ** Indexing *)

Lemma index_int_Ok {A} (a : list A) (i : nat) (x : A) :
  a !! i = Some x → index_int a i = Ok x.
Proof. unfold index_int. by intros ->. Qed.

Lemma index_array_Ok {A} (a : list A) (idx : list nat) :
  Forall (λ i, i < length a) idx →
  ∃ l, index_array a idx = Ok l ∧ length l = length idx ∧
       ∀ p i, idx !! p = Some i → l !! p = a !! i.
Proof.
  induction 1 as [|i idx Hi _ (l & IH & Hl & Hlk)]; simpl.
  { exists []. by split. }
  destruct (lookup_lt_is_Some_2 a i Hi) as [x Hx].
  exists (x :: l). unfold index_array in *. simpl.
  rewrite (index_int_Ok _ _ _ Hx). simpl. rewrite IH. simpl.
  split; [done|]. split; [by rewrite Hl|].
  intros [|p] j; simpl; [|by apply Hlk]. by intros [= ->].
Qed.

Lemma index_array_Raise {A} (a : list A) (idx : list nat) :
  Exists (λ i, length a ≤ i) idx → index_array a idx = Raise IndexError.
Proof.
  unfold index_array. induction idx as [|i idx IH]; intros H.
  { by apply Exists_nil in H. }
  simpl. destruct (a !! i) as [x|] eqn:E.
  - rewrite (index_int_Ok _ _ _ E). simpl.
    apply Exists_cons in H as [H|H].
    { apply lookup_lt_Some in E. lia. }
    by rewrite IH.
  - unfold index_int. by rewrite E.
Qed.

Lemma index_bool_Ok {A} (a : list A) (m : list bool) :
  length a = length m → index_bool a m = Ok (compress m a).
Proof. intros. unfold index_bool. by rewrite decide_True. Qed.

Lemma index_bool_Raise {A} (a : list A) (m : list bool) :
  length a ≠ length m → index_bool a m = Raise IndexError.
Proof. intros. unfold index_bool. by rewrite decide_False. Qed.

Lemma compress_nil_r {A} (m : list bool) : compress m (@nil A) = [].
Proof. by destruct m as [|[]]. Qed.

Lemma compress_fmap {A B} (f : A → B) (m : list bool) (a : list A) :
  compress m (f <$> a) = f <$> compress m a.
Proof.
  revert a. induction m as [|[] m IH]; intros [|x a]; simpl; try done.
  by rewrite IH.
Qed.

Lemma compress_zip_with {A B C} (f : A → B → C) (m : list bool) a b :
  zip_with f (compress m a) (compress m b) = compress m (zip_with f a b).
Proof.
  revert a b. induction m as [|[] m IH]; intros [|x a] [|y b]; simpl;
    rewrite ?compress_nil_r; try done.
  all: try by destruct (compress m a).
  all: by rewrite IH.
Qed.

Lemma compress_app {A} (m1 m2 : list bool) (a1 a2 : list A) :
  length m1 = length a1 →
  compress (m1 ++ m2) (a1 ++ a2) = compress m1 a1 ++ compress m2 a2.
Proof.
  revert a1. induction m1 as [|[] m1 IH]; intros [|x a1] ?;
    simplify_eq/=; try done; by rewrite IH.
Qed.

Lemma compress_replicate_false {A} (n : nat) (a : list A) :
  compress (replicate n false) a = [].
Proof. revert a. induction n; intros [|??]; simpl; auto. Qed.

Lemma where_app_false (bits : list bool) (n : nat) :
  where_ (bits ++ replicate n false) = where_ bits.
Proof.
  unfold where_. rewrite length_app, seq_app, length_replicate.
  rewrite compress_app by by rewrite length_seq.
  by rewrite compress_replicate_false, app_nil_r.
Qed.

Lemma where_snoc (bits : list bool) (b : bool) :
  where_ (bits ++ [b]) = where_ bits ++ (if b then [length bits] else []).
Proof.
  unfold where_. rewrite length_app, seq_app.
  rewrite compress_app by by rewrite length_seq.
  by destruct b.
Qed.

Lemma count_nonzero_where (m : list bool) :
  count_nonzero m = length (where_ m).
Proof.
  unfold count_nonzero, where_. generalize 0.
  induction m as [|b m IH]; intros s; [done|].
  rewrite filter_cons. change (length (b :: m)) with (S (length m)).
  destruct b; case_decide; try done; simpl; by rewrite (IH (S s)).
Qed.

Lemma elem_of_compress_seq (m : list bool) (s n i : nat) :
  i ∈ compress m (seq s n) → s ≤ i < s + n.
Proof.
  revert s n. induction m as [|b m IH]; intros s n.
  { by intros ?%elem_of_nil. }
  destruct n as [|n]; [destruct b; by intros ?%elem_of_nil|]. simpl.
  destruct b; [intros [->|?%IH]%elem_of_cons | intros ?%IH]; lia.
Qed.

Lemma elem_of_where_lt (m : list bool) (i : nat) :
  i ∈ where_ m → i < length m.
Proof. intros ?%elem_of_compress_seq. lia. Qed.

Lemma existsb_fmap {A B} (f : A → B) (P : B → bool) (l : list A) :
  existsb P (f <$> l) = existsb (P ∘ f) l.
Proof. induction l as [|x l IH]; csimpl; [done|]. by rewrite IH. Qed.

Lemma existsb_ext_elem {A} (P Q : A → bool) (l : list A) :
  (∀ x, x ∈ l → P x = Q x) → existsb P l = existsb Q l.
Proof.
  induction l as [|x l IH]; intros H; simpl; [done|].
  rewrite (H x) by left. rewrite IH; [done|]. intros; apply H. by right.
Qed.

Lemma zip_with_lookup_total `{Inhabited A, Inhabited B} {C}
    (f : A → B → C) (a : list A) (b : list B) :
  length a = length b →
  zip_with f a b = (λ k, f (a !!! k) (b !!! k)) <$> seq 0 (length a).
Proof.
  intros Hl. apply list_eq; intros k.
  rewrite lookup_zip_with, list_lookup_fmap.
  destruct (decide (k < length a)).
  - rewrite lookup_seq_lt by lia. simpl.
    rewrite (list_lookup_lookup_total_lt a k) by lia. simpl.
    by rewrite (list_lookup_lookup_total_lt b k) by lia.
  - rewrite lookup_seq_ge by lia. by rewrite (lookup_ge_None_2 a) by lia.
Qed.

(** ** The sequential loop is the greedy selection *)

Lemma cpu_suppressed_spec bbox bbox_area thresh selec i b :
  length bbox = length selec → length bbox_area = length selec →
  bbox !! i = Some b →
  cpu_suppressed bbox bbox_area thresh selec i b
  = Ok (existsb (λ k, cpu_ov bbox bbox_area thresh k i) (where_ selec)).
Proof.
  intros Hb Ha Hi. unfold cpu_suppressed, index_bool.
  rewrite !decide_True by done. simpl.
  assert (i < length bbox_area) as Hlt.
  { apply lookup_lt_Some in Hi. lia. }
  rewrite (index_int_Ok _ _ (bbox_area !!! i))
    by by apply list_lookup_lookup_total_lt.
  simpl. unfold mret, res_ret. f_equal.
  rewrite <- compress_fmap, compress_zip_with.
  rewrite zip_with_lookup_total by (rewrite length_fmap; lia).
  rewrite length_fmap, Hb, compress_fmap, existsb_fmap.
  unfold where_. apply existsb_ext_elem. intros k Hk.
  apply elem_of_compress_seq in Hk. simpl. unfold cpu_ov.
  rewrite (list_lookup_total_fmap (cpu_inter b) bbox k) by lia.
  by rewrite (list_lookup_total_correct _ _ _ Hi).
Qed.

Lemma limit_reached_hit (limit : option Z) (selec : list bool) :
  limit_reached limit selec = limit_hit limit (length (where_ selec)).
Proof. destruct limit; simpl; [|done]. by rewrite count_nonzero_where. Qed.

Lemma cpu_loop_greedy bbox bbox_area thresh limit (m : nat) (bits : list bool) :
  length bbox = length bits + m → length bbox_area = length bbox →
  ∃ bits' m',
    cpu_loop bbox bbox_area thresh limit
             (drop (length bits) (enumerate bbox))
             (bits ++ replicate m false)
    = Ok (bits' ++ replicate m' false) ∧
    length bits' + m' = length bbox ∧
    where_ bits' = greedy (cpu_ov bbox bbox_area thresh) limit
                          (seq (length bits) m) (where_ bits).
Proof.
  revert bits. induction m as [|m IH]; intros bits Hb Ha.
  { exists bits, 0.
    rewrite drop_ge by (unfold enumerate; rewrite length_imap; lia).
    simpl. split; [done|]. split; [lia | done]. }
  destruct (lookup_lt_is_Some_2 bbox (length bits)) as [b Hlk]; [lia|].
  rewrite (drop_S _ (length bits, b))
    by (unfold enumerate; by rewrite list_lookup_imap, Hlk).
  simpl cpu_loop.
  rewrite (cpu_suppressed_spec _ _ _ _ _ _)
    by (rewrite ?length_app; simpl; rewrite ?length_replicate;
        first [lia | done]).
  change (false :: replicate m false) with ([false] ++ replicate m false).
  rewrite (app_assoc bits [false]), where_app_false, where_snoc, app_nil_r.
  simpl mbind. simpl greedy.
  destruct (existsb _ (where_ bits)) eqn:Esup.
  - destruct (IH (bits ++ [false])) as (bits' & m' & Hrun & Hlen & Hw).
    { rewrite length_app. simpl. lia. } { done. }
    rewrite length_app, Nat.add_1_r in Hrun, Hw.
    rewrite where_snoc, app_nil_r in Hw.
    exists bits', m'. by rewrite Hrun.
  - assert (<[length bits:=true]> ((bits ++ [false]) ++ replicate m false)
            = (bits ++ [true]) ++ replicate m false) as ->.
    { rewrite <- !app_assoc. by rewrite insert_app_r_alt, Nat.sub_diag by lia. }
    rewrite limit_reached_hit, where_app_false, where_snoc.
    destruct (limit_hit limit _) eqn:Ehit.
    + exists (bits ++ [true]), m. rewrite where_snoc, length_app. simpl.
      split; [done|]. split; [lia | done].
    + destruct (IH (bits ++ [true])) as (bits' & m' & Hrun & Hlen & Hw).
      { rewrite length_app. simpl. lia. } { done. }
      rewrite length_app, Nat.add_1_r in Hrun, Hw. rewrite where_snoc in Hw.
      exists bits', m'. by rewrite Hrun.
Qed.

(** The loop over all boxes, from an all-false selection. *)
Lemma cpu_loop_run bbox bbox_area thresh limit :
  length bbox_area = length bbox →
  ∃ selec,
    cpu_loop bbox bbox_area thresh limit (enumerate bbox)
             (replicate (length bbox) false) = Ok selec ∧
    length selec = length bbox ∧
    where_ selec = greedy (cpu_ov bbox bbox_area thresh) limit
                          (seq 0 (length bbox)) [].
Proof.
  intros Ha.
  destruct (cpu_loop_greedy bbox bbox_area thresh limit (length bbox) [])
    as (bits' & m' & Hrun & Hlen & Hw); [done..|].
  exists (bits' ++ replicate m' false). split; [done|].
  split; [by rewrite length_app, length_replicate|].
  by rewrite where_app_false.
Qed.

(** Without scores the sequential selector is the greedy selection over
    the boxes as given, with the test the loop computes. *)
Lemma cpu_unscored_greedy bbox thresh limit :
  _non_maximum_suppression_cpu bbox thresh None limit
  = Ok (greedy (cpu_ov bbox (box_area <$> bbox) thresh) limit
               (seq 0 (length bbox)) []).
Proof.
  unfold _non_maximum_suppression_cpu. case_decide as Hn.
  { by rewrite Hn. }
  simpl.
  destruct (cpu_loop_run bbox (box_area <$> bbox) thresh limit)
    as (selec & -> & _ & Hw); [by rewrite length_fmap|].
  simpl. by rewrite Hw.
Qed.

(** ** The greedy selection *)

Lemma greedy_prefix ov limit todo acc :
  acc `prefix_of` greedy ov limit todo acc.
Proof.
  revert acc. induction todo as [|i todo IH]; intros acc; simpl; [done|].
  destruct (existsb _ acc); [apply IH|].
  destruct (limit_hit _ _); [by apply prefix_app_r|].
  etrans; [|apply IH]. by apply prefix_app_r.
Qed.

Lemma greedy_elem_of_inv ov limit todo acc i :
  i ∈ greedy ov limit todo acc → i ∈ acc ∨ i ∈ todo.
Proof.
  revert acc. induction todo as [|x todo IH]; intros acc; simpl; [by left|].
  destruct (existsb _ acc).
  { intros [?|?]%IH; [by left | right; by right]. }
  destruct (limit_hit _ _).
  - intros [?| ->%list_elem_of_singleton]%elem_of_app;
      [by left | right; by left].
  - intros [[?| ->%list_elem_of_singleton]%elem_of_app|?]%IH;
      [by left | right; by left | right; by right].
Qed.

Lemma greedy_ext ov ov' limit todo acc :
  (∀ k i, k ∈ acc ++ todo → i ∈ todo → ov k i = ov' k i) →
  greedy ov limit todo acc = greedy ov' limit todo acc.
Proof.
  revert acc. induction todo as [|x todo IH]; intros acc H; simpl; [done|].
  rewrite (existsb_ext_elem (λ k, ov k x) (λ k, ov' k x)).
  2:{ intros k Hk. apply H; [apply elem_of_app; by left | by left]. }
  destruct (existsb _ acc).
  - apply IH. intros k i Hk Hi. apply H; [|by right].
    apply elem_of_app in Hk as [?|?]; apply elem_of_app;
      [by left | right; by right].
  - destruct (limit_hit _ _); [done|].
    apply IH. intros k i Hk Hi. apply H; [|by right].
    rewrite <- app_assoc in Hk. by simpl in Hk.
Qed.

Lemma StronglySorted_seq (s n : nat) : StronglySorted lt (seq s n).
Proof.
  revert s. induction n as [|n IH]; intros s; simpl; constructor; [done|].
  apply Forall_forall. intros i Hi%elem_of_seq. lia.
Qed.

Lemma greedy_sorted ov limit todo acc :
  StronglySorted lt acc → StronglySorted lt todo →
  (∀ k i, k ∈ acc → i ∈ todo → k < i) →
  StronglySorted lt (greedy ov limit todo acc).
Proof.
  revert acc.
  induction todo as [|x todo IH]; intros acc Ha Ht Hlt; simpl; [done|].
  apply StronglySorted_cons in Ht as [Hx Ht]. rewrite Forall_forall in Hx.
  assert (StronglySorted lt (acc ++ [x])) as Hacc'.
  { apply StronglySorted_app. split_and!; [|done|repeat constructor].
    intros k ? Hk ->%list_elem_of_singleton. apply Hlt; [done | by left]. }
  destruct (existsb _ acc).
  { apply IH; [done..|]. intros k i ??. apply Hlt; [done | by right]. }
  destruct (limit_hit _ _); [done|].
  apply IH; [done..|].
  intros k i [?| ->%list_elem_of_singleton]%elem_of_app Hi;
    [apply Hlt; [done | by right] | by apply Hx].
Qed.

(** Without a limit, a position is accepted exactly when no accepted
    position before it suppresses it. *)
Lemma greedy_elem_of ov todo acc i :
  StronglySorted lt todo →
  (∀ k x, k ∈ acc → x ∈ todo → k < x) →
  i ∈ greedy ov None todo acc ↔
  i ∈ acc ∨ (i ∈ todo ∧
             ∀ j, j ∈ greedy ov None todo acc → j < i → ov j i = false).
Proof.
  revert acc. induction todo as [|x todo IH]; intros acc Ht Hlt; simpl.
  { split; [by left|]. by intros [?|[?%elem_of_nil _]]. }
  apply StronglySorted_cons in Ht as [Hx Ht]. rewrite Forall_forall in Hx.
  destruct (existsb _ acc) eqn:Esup.
  - rewrite IH; [|done|intros k y ??; apply Hlt; [done | by right]].
    split; (intros [?|[Hi Hov]]; [by left | right]).
    + split; [by right | done].
    + apply elem_of_cons in Hi as [->|Hi]; [|done].
      apply existsb_exists in Esup as (k & Hk%list_elem_of_In & Hk').
      rewrite (Hov k) in Hk'; [done| |apply Hlt; [done | by left]].
      destruct (greedy_prefix ov None todo acc) as [? ->].
      apply elem_of_app. by left.
  - assert (∀ k y, k ∈ acc ++ [x] → y ∈ todo → k < y) as Hlt'.
    { intros k y [?| ->%list_elem_of_singleton]%elem_of_app Hy;
        [apply Hlt; [done | by right] | by apply Hx]. }
    rewrite (IH _ Ht Hlt'). rewrite elem_of_app, list_elem_of_singleton.
    split.
    + intros [[?| ->]|[Hi Hov]]; [by left| |right; split; [by right | done]].
      right. split; [by left|]. intros j Hj Hjx.
      apply greedy_elem_of_inv in Hj
        as [[Hj| ->%list_elem_of_singleton]%elem_of_app|Hj]; [|lia|].
      * apply not_true_iff_false. intros Hov.
        apply not_true_iff_false in Esup. apply Esup.
        apply existsb_exists. exists j. by rewrite <- list_elem_of_In.
      * apply Hx in Hj. lia.
    + intros [?|[[->|Hi]%elem_of_cons Hov]];
        [by left; left | by left; right | right; done].
Qed.

Lemma greedy_limit_take ov (l : Z) todo acc :
  length acc < Z.to_nat l →
  greedy ov (Some l) todo acc = take (Z.to_nat l) (greedy ov None todo acc).
Proof.
  revert acc. induction todo as [|x todo IH]; intros acc Hl; simpl.
  { by rewrite take_ge by lia. }
  destruct (existsb _ acc); [by apply IH|].
  destruct (l <=? _)%Z eqn:E.
  - apply Z.leb_le in E. rewrite length_app in E; simpl in E.
    destruct (greedy_prefix ov None todo (acc ++ [x])) as [k ->].
    rewrite take_app_length'; [done|]. rewrite length_app. simpl. lia.
  - apply Z.leb_gt in E. apply IH. lia.
Qed.

(** ** The sequential selector without scores *)

Lemma dev_interS_sym (a b : box) : (dev_interS a b == dev_interS b a)%Q.
Proof.
  unfold dev_interS.
  by rewrite (Q.max_comm (x_min a)), (Q.max_comm (y_min a)),
    (Q.min_comm (x_max a)), (Q.min_comm (y_max a)).
Qed.

Lemma devIoU_sym (a b : box) : fval_eq (devIoU a b) (devIoU b a).
Proof.
  unfold devIoU. apply fdiv_proper; [apply dev_interS_sym|].
  rewrite (dev_interS_sym a b). ring.
Qed.

(** On the boxes as given, with their own areas, the test of the loop is
    the overlap bit. *)
Lemma cpu_ov_overlaps (bbox : list box) (thresh : Q) (k i : nat) :
  k < length bbox → i < length bbox →
  cpu_ov bbox (box_area <$> bbox) thresh k i
  = overlaps thresh (bbox !!! k) (bbox !!! i).
Proof.
  intros Hk Hi. unfold cpu_ov, overlaps.
  rewrite (list_lookup_total_fmap box_area bbox k) by done.
  rewrite (list_lookup_total_fmap box_area bbox i) by done.
  apply fge_proper; [|done].
  etrans; [apply jaccard_devIoU | apply devIoU_sym].
Qed.

Lemma cpu_unscored_overlaps bbox thresh limit :
  _non_maximum_suppression_cpu bbox thresh None limit
  = Ok (greedy (λ k i, overlaps thresh (bbox !!! k) (bbox !!! i)) limit
               (seq 0 (length bbox)) []).
Proof.
  rewrite cpu_unscored_greedy. f_equal. apply greedy_ext.
  intros k i Hk%elem_of_seq Hi%elem_of_seq.
  apply cpu_ov_overlaps; lia.
Qed.

(** C3, as the code has it when no scores are given: the selector
    returns; its result lists positions in scan order; without a limit a
    box is in the result exactly when no box accepted before it overlaps
    it at or above the threshold; and with a limit [l >= 1] the scan stops
    at the [l]-th acceptance, so the result is the first [l] of those. *)
Theorem sequential_selector_unscored (bbox : list box) (thresh : Q) :
  ∃ result,
    _non_maximum_suppression_cpu bbox thresh None None = Ok result ∧
    StronglySorted lt result ∧
    (∀ i, i ∈ result → i < length bbox) ∧
    selected_iff_unsuppressed bbox thresh result ∧
    ∀ l, (1 ≤ l)%Z →
      _non_maximum_suppression_cpu bbox thresh None (Some l)
      = Ok (take (Z.to_nat l) result).
Proof.
  set (ov := λ k i, overlaps thresh (bbox !!! k) (bbox !!! i)).
  exists (greedy ov None (seq 0 (length bbox)) []).
  split; [apply cpu_unscored_overlaps|].
  split.
  { apply greedy_sorted; [constructor | apply StronglySorted_seq|].
    by intros ?? ?%elem_of_nil. }
  split.
  { intros i [?%elem_of_nil|?%elem_of_seq]%greedy_elem_of_inv; [done | lia]. }
  split.
  - intros i Hi. rewrite greedy_elem_of;
      [|apply StronglySorted_seq|by intros ?? ?%elem_of_nil].
    rewrite elem_of_seq. split.
    + by intros [?%elem_of_nil|[_ ?]].
    + intros H. right. split; [lia | done].
  - intros l Hl. rewrite cpu_unscored_overlaps. f_equal.
    apply greedy_limit_take. simpl. lia.
Qed.

(** C3, as stated, fails once a limit stops the scan: of two boxes far
    apart and a limit of one, the second is not in the result although
    nothing overlaps it. *)
Lemma limit_leaves_unsuppressed_box_out :
  _non_maximum_suppression_cpu apart_boxes (1 # 2) None (Some 1%Z) = Ok [0] ∧
  ¬ selected_iff_unsuppressed apart_boxes (1 # 2) [0].
Proof.
  split; [by vm_compute|]. intros H.
  destruct (H 1) as [_ H1]; [simpl; lia|].
  assert (1 ∈ [0]) as Hin; [|by apply list_elem_of_singleton in Hin].
  apply H1. intros j ->%list_elem_of_singleton _. by vm_compute.
Qed.

(** ** Scores and boxes of different lengths *)

Lemma score_order_lt (score : list Q) (i : nat) :
  i ∈ score_order score ↔ i < length score.
Proof. rewrite score_order_Permutation, elem_of_seq. lia. Qed.


Lemma cpu_scored_longer bbox thresh score limit :
  0 < length bbox < length score →
  _non_maximum_suppression_cpu bbox thresh (Some score) limit
  = Raise IndexError.
Proof.
  intros Hl. unfold _non_maximum_suppression_cpu.
  case_decide; [lia|]. simpl.
  rewrite index_array_Raise; [done|].
  apply Exists_exists. exists (length bbox).
  split; [|done]. apply score_order_lt. lia.
Qed.

Lemma cpu_scored_shorter bbox thresh score limit :
  0 < length score < length bbox →
  _non_maximum_suppression_cpu bbox thresh (Some score) limit
  = Raise IndexError.
Proof.
  intros Hl. unfold _non_maximum_suppression_cpu.
  case_decide; [lia|]. simpl.
  destruct (index_array_Ok bbox (score_order score)) as (bbox' & -> & Hl' & _).
  { apply Forall_forall. intros i Hi%score_order_lt. lia. }
  rewrite length_score_order in Hl'. simpl.
  destruct bbox' as [|b bbox']; [simpl in Hl'; lia|].
  unfold enumerate. rewrite imap_cons. simpl cpu_loop.
  unfold cpu_suppressed.
  rewrite (index_bool_Ok (b :: bbox')) by (simpl; by rewrite length_replicate).
  destruct bbox as [|b0 bbox]; [simpl in *; lia|]. simpl.
  rewrite index_bool_Raise; [done|].
  simpl. rewrite length_fmap, length_replicate. simpl in *. lia.
Qed.

Lemma cpu_scored_empty bbox thresh limit :
  _non_maximum_suppression_cpu bbox thresh (Some []) limit = Ok [].
Proof. unfold _non_maximum_suppression_cpu. by case_decide. Qed.



(** ** Where the sequential selector departs from its contract *)

Example skewed_order : score_order skewed_scores = [2; 0; 1].
Proof. reflexivity. Qed.

(** C2 at scores [0.5, 0.1, 0.9] on two coincident unit boxes and a far
    large box: the areas are read at the positions of the reordered
    boxes from the array computed before the reordering, so the unit box
    scanned last is compared with the area of the large box; both unit
    boxes are returned although their IoU is 1. *)
Theorem overlapping_pair_selected_with_scores :
  _non_maximum_suppression_cpu skewed_boxes (1 # 2) (Some skewed_scores) None
  = Ok [2; 0; 1] ∧
  overlaps (1 # 2) (skewed_boxes !!! 0) (skewed_boxes !!! 1) = true ∧
  flt (devIoU (skewed_boxes !!! 0) (skewed_boxes !!! 1)) (1 # 2) = false.
Proof. by vm_compute. Qed.

(** C1 at the same input: the sequential strategy returns three indices
    and the parallel strategy two; and at a limit of zero the sequential
    strategy returns one index and the parallel strategy none. *)
Theorem strategies_diverge :
  non_maximum_suppression numpy skewed_boxes (1 # 2) (Some skewed_scores) None
  = Ok [2; 0; 1] ∧
  non_maximum_suppression cupy skewed_boxes (1 # 2) (Some skewed_scores) None
  = Ok [2; 0] ∧
  non_maximum_suppression numpy apart_boxes (1 # 2) None (Some 0%Z)
  = Ok [0] ∧
  non_maximum_suppression cupy apart_boxes (1 # 2) None (Some 0%Z)
  = Ok [].
Proof. by vm_compute. Qed.

(** C4 at a limit of zero: the count is compared with the limit only
    after a box has been accepted, so one index is returned; without a
    limit the same call returns two, whose prefix of length zero is
    empty. *)
Theorem limit_zero_returns_one_box :
  _non_maximum_suppression_cpu apart_boxes (1 # 2) None (Some 0%Z) = Ok [0] ∧
  _non_maximum_suppression_cpu apart_boxes (1 # 2) None None = Ok [0; 1].
Proof. by vm_compute. Qed.

(** C10 at the input of C2, whose boxes are well-formed: the selector
    returns [2; 0; 1]; run again on those boxes with those scores, which
    now are in descending order, it reads the right areas and rejects the
    second unit box. *)
Theorem rerun_drops_selected_box :
  Forall well_formed skewed_boxes ∧
  _non_maximum_suppression_cpu skewed_boxes (1 # 2) (Some skewed_scores) None
  = Ok [2; 0; 1] ∧
  ∃ boxes' scores',
    index_array skewed_boxes [2; 0; 1] = Ok boxes' ∧
    index_array skewed_scores [2; 0; 1] = Ok scores' ∧
    _non_maximum_suppression_cpu boxes' (1 # 2) (Some scores') None
    = Ok [0; 1].
Proof.
  split.
  { repeat constructor; unfold Qle; simpl; lia. }
  split; [by vm_compute|].
  eexists _, _. split; [reflexivity|]. split; [reflexivity|]. by vm_compute.
Qed.

(** ** The bitmask builder *)

#[local] Arguments ceil_div : simpl never.
#[local] Arguments DIVUP : simpl never.
#[local] Arguments threadsPerBlock : simpl never.
#[local] Arguments Nat.div : simpl never.
#[local] Arguments Nat.modulo : simpl never.

Lemma mapM_Ok {A B} (f : A → res B) (g : A → B) (l : list A) :
  Forall (λ x, f x = Ok (g x)) l → mapM f l = Ok (g <$> l).
Proof.
  induction 1 as [|x l Hx _ IH]; [done|].
  simpl. rewrite Hx. simpl. by rewrite IH.
Qed.

Lemma for_each_pure {A St} (body : A → St → res St) (g : St → A → St) l s :
  (∀ x s, x ∈ l → body x s = Ok (g s x)) →
  for_each body l s = Ok (foldl g s l).
Proof.
  revert s. induction l as [|x l IH]; intros s H; simpl; [done|].
  rewrite H by left. simpl. apply IH. intros; apply H. by right.
Qed.

(** A loop that keeps an invariant indexed by the number of turns. *)
Lemma for_each_inv {A St} (I : nat → St → Prop) (body : A → St → res St)
    l s :
  I 0 s →
  (∀ p x s, l !! p = Some x → I p s → ∃ s', body x s = Ok s' ∧ I (S p) s') →
  ∃ s', for_each body l s = Ok s' ∧ I (length l) s'.
Proof.
  revert I s. induction l as [|x l IH]; intros I s H0 Hstep; simpl.
  { by exists s. }
  destruct (Hstep 0 x s) as (s1 & -> & H1); [done..|]. simpl.
  apply (IH (λ p, I (S p))); [done|].
  intros p y s' Hp. by apply (Hstep (S p)).
Qed.

Lemma testbit_shiftl_1 (i k : nat) :
  Z.testbit (Z.shiftl 1 (Z.of_nat i)) (Z.of_nat k) = bool_decide (k = i).
Proof.
  rewrite Z.shiftl_1_l, Z.pow2_bits_eqb by lia.
  case_bool_decide; [apply Z.eqb_eq | apply Z.eqb_neq]; lia.
Qed.

Lemma tile_word_testbit ov cols t (k : nat) :
  Z.testbit (tile_word ov cols t) (Z.of_nat k)
  = Z.testbit t (Z.of_nat k) || (bool_decide (k ∈ cols) && ov k).
Proof.
  unfold tile_word. revert t.
  induction cols as [|i cols IH]; intros t; simpl.
  { by rewrite orb_false_r. }
  rewrite IH. destruct (decide (k = i)) as [->|Hne].
  - rewrite (bool_decide_eq_true_2 (i ∈ i :: cols)) by left.
    destruct (ov i) eqn:Ei.
    + rewrite Z.lor_spec, testbit_shiftl_1, bool_decide_eq_true_2 by done.
      by destruct (Z.testbit t _), (bool_decide _).
    + by rewrite !andb_false_r.
  - rewrite (bool_decide_ext (k ∈ i :: cols) (k ∈ cols))
      by (rewrite elem_of_cons; split; [by intros [?|?] | by right]).
    destruct (ov i); [|done].
    rewrite Z.lor_spec, testbit_shiftl_1, bool_decide_eq_false_2 by done.
    by rewrite orb_false_r.
Qed.

Lemma tile_word_nonneg ov cols t : (0 ≤ t)%Z → (0 ≤ tile_word ov cols t)%Z.
Proof.
  unfold tile_word. revert t.
  induction cols as [|i cols IH]; intros t Ht; simpl.
  { done. }
  apply IH. destruct (ov i); [|done].
  apply Z.lor_nonneg. split; [done|]. apply Z.shiftl_nonneg. lia.
Qed.

(** Bit [k] of the word at row [r] and column tile [c]. *)
Lemma mask_word_testbit n thresh bbox r c (k : nat) :
  Z.testbit (mask_word n thresh bbox r c) (Z.of_nat k)
  = mask_bit n thresh bbox r c k.
Proof.
  unfold mask_word, mask_bit. cbv zeta.
  rewrite tile_word_testbit, Z.bits_0, orb_false_l.
  rewrite (Nat.mul_comm threadsPerBlock c).
  destruct (overlaps _ _ _); [|by rewrite !andb_false_r].
  rewrite !andb_true_r. unfold threadsPerBlock.
  case_bool_decide as Hk; rewrite elem_of_seq in Hk; symmetry.
  - destruct (r / 64 =? c) eqn:E.
    + rewrite !andb_true_iff, !Nat.ltb_lt. lia.
    + rewrite !andb_true_iff, !Nat.ltb_lt. lia.
  - destruct (r / 64 =? c) eqn:E.
    + rewrite !andb_false_iff, !Nat.ltb_ge. lia.
    + rewrite !andb_false_iff, !Nat.ltb_ge. lia.
Qed.

Lemma DIVUP_ceil_div (n : nat) :
  DIVUP n threadsPerBlock = ceil_div n 64.
Proof.
  unfold DIVUP, ceil_div, threadsPerBlock.
  destruct (0 <? n mod 64) eqn:E;
    [apply Nat.ltb_lt in E | apply Nat.ltb_ge in E]; lia.
Qed.

Lemma ceil_div_covers (n : nat) : n ≤ 64 * ceil_div n 64.
Proof. unfold ceil_div. lia. Qed.

Lemma address_inj (cb r c r' c' : nat) :
  c < cb → c' < cb → r * cb + c = r' * cb + c' → r = r' ∧ c = c'.
Proof. intros. assert (r = r') by nia. subst. lia. Qed.

Lemma address_lt (n cb r c : nat) : r < n → c < cb → r * cb + c < n * cb.
Proof. nia. Qed.

Lemma dev_load_Ok `{Inhabited A} (a : list A) (i : nat) :
  i < length a → dev_load a i = Ok (a !!! i).
Proof.
  intros. unfold dev_load. by rewrite list_lookup_lookup_total_lt.
Qed.

Lemma int32_small (z : Z) :
  (-2147483648 ≤ z < 2147483648)%Z → int32 z = z.
Proof. unfold int32. lia. Qed.

Section kernel.
Context (bbox : list box) (thresh : Q).
Local Abbreviation n := (length bbox).
Local Abbreviation cb := (ceil_div (length bbox) 64).
Hypothesis fits : mask_fits_int (length bbox).

Lemma load_block_boxes_staged (x : nat) :
  load_block_boxes n bbox x = Ok (staged bbox x).
Proof.
  unfold load_block_boxes, staged. apply mapM_Ok, Forall_forall.
  intros t Ht%elem_of_seq. apply dev_load_Ok.
  unfold threadsPerBlock in *. lia.
Qed.

Lemma mask_loop_word (r x start : nat) :
  r < n →
  let col_size := Nat.min (n - x * threadsPerBlock) threadsPerBlock in
  for_each (mask_step thresh bbox r (staged bbox x))
           (seq start (col_size - start)) 0%Z
  = Ok (tile_word (λ i, overlaps thresh (bbox !!! r)
                                 (bbox !!! (threadsPerBlock * x + i)))
                  (seq start (col_size - start)) 0).
Proof.
  intros Hr col_size. unfold tile_word. apply for_each_pure.
  intros i t Hi%elem_of_seq. unfold mask_step.
  rewrite (dev_load_Ok bbox r) by done. simpl.
  rewrite (dev_load_Ok (staged bbox x) i)
    by (unfold staged; rewrite length_fmap, length_seq; fold col_size; lia).
  simpl. unfold staged.
  rewrite (list_lookup_total_fmap _ (seq _ _)), lookup_total_seq_lt
    by (rewrite ?length_seq; fold col_size; lia).
  done.
Qed.

Lemma kernel_inv_ext y x t y' x' t' mask :
  (∀ r c, r < n → c < cb →
          done_before y x t r c ↔ done_before y' x' t' r c) →
  kernel_inv n thresh bbox cb y x t mask →
  kernel_inv n thresh bbox cb y' x' t' mask.
Proof.
  intros Hiff [Hlen Hinv]. split; [done|].
  intros r c Hr Hc. rewrite (Hinv r c Hr Hc). f_equal.
  specialize (Hiff r c Hr Hc). by repeat case_decide; try tauto.
Qed.

Lemma kernel_thread_step y x t mask :
  x < cb → t < threadsPerBlock →
  kernel_inv n thresh bbox cb y x t mask →
  ∃ mask',
    nms_kernel_thread n thresh bbox y x (staged bbox x) t mask = Ok mask' ∧
    kernel_inv n thresh bbox cb y x (S t) mask'.
Proof.
  intros Hx Ht Hinv. unfold nms_kernel_thread.
  destruct (t <? _) eqn:Erow;
    [apply Nat.ltb_lt in Erow | apply Nat.ltb_ge in Erow].
  - set (r0 := threadsPerBlock * y + t).
    assert (r0 < n) as Hr0 by (unfold r0, threadsPerBlock in *; lia).
    assert (r0 / threadsPerBlock = y ∧ r0 mod threadsPerBlock = t)
      as [Hdiv Hmod] by (unfold r0, threadsPerBlock in *; lia).
    rewrite mask_loop_word by done. simpl.
    rewrite DIVUP_ceil_div.
    destruct Hinv as [Hlen Hinv].
    assert (r0 * cb + x < n * cb) as Haddr by by apply address_lt.
    unfold mask_fits_int in fits.
    rewrite (int32_small (Z.of_nat r0 * Z.of_nat cb)) by nia.
    rewrite int32_small by nia.
    replace (Z.of_nat r0 * Z.of_nat cb + Z.of_nat x)%Z
      with (Z.of_nat (r0 * cb + x)) by lia.
    unfold dev_store. rewrite decide_True by lia. rewrite Nat2Z.id.
    eexists. split; [done|]. split; [by rewrite length_insert|].
    intros r c Hr Hc.
    destruct (decide (r * cb + c = r0 * cb + x)) as [Heq|Hne].
    + apply address_inj in Heq as [-> ->]; [|done..].
      rewrite list_lookup_insert_eq by (rewrite Hlen; by apply address_lt).
      rewrite decide_True by (unfold done_before; lia).
      unfold mask_word. rewrite Hdiv, Hmod.
      by destruct (y =? x).
    + rewrite list_lookup_insert_ne by done.
      rewrite (Hinv r c Hr Hc). f_equal.
      assert (r ≠ r0 ∨ c ≠ x) as Hrc
        by (destruct (decide (r = r0)); naive_solver).
      unfold done_before, threadsPerBlock in *.
      repeat case_decide; try done; exfalso; lia.
  - exists mask. split; [done|].
    revert Hinv. apply kernel_inv_ext. intros r c Hr Hc.
    unfold done_before, threadsPerBlock in *. lia.
Qed.

Lemma kernel_block_step y x mask :
  x < cb →
  kernel_inv n thresh bbox cb y x 0 mask →
  ∃ mask',
    nms_kernel_block 64 n thresh bbox y x mask = Ok mask' ∧
    kernel_inv n thresh bbox cb y (S x) 0 mask'.
Proof.
  intros Hx Hinv. unfold nms_kernel_block.
  rewrite load_block_boxes_staged. simpl.
  destruct (for_each_inv (λ t, kernel_inv n thresh bbox cb y x t)
              (nms_kernel_thread n thresh bbox y x (staged bbox x))
              (seq 0 64) mask) as (mask' & Hrun & Hinv'); [done| |].
  { intros p t m [-> Hp]%lookup_seq. by apply kernel_thread_step. }
  exists mask'. split; [done|].
  revert Hinv'. apply kernel_inv_ext. intros r c Hr Hc.
  rewrite length_seq. unfold done_before, threadsPerBlock. lia.
Qed.

Lemma kernel_row_step y mask :
  kernel_inv n thresh bbox cb y 0 0 mask →
  ∃ mask',
    for_each (λ col_start,
                nms_kernel_block 64 n thresh bbox y col_start)
             (seq 0 cb) mask = Ok mask' ∧
    kernel_inv n thresh bbox cb (S y) 0 0 mask'.
Proof.
  intros Hinv.
  destruct (for_each_inv (λ x, kernel_inv n thresh bbox cb y x 0)
              (λ col_start, nms_kernel_block 64 n thresh bbox y col_start)
              (seq 0 cb) mask) as (mask' & Hrun & Hinv'); [done| |].
  { intros p x m [-> Hp]%lookup_seq. by apply kernel_block_step. }
  exists mask'. split; [done|].
  revert Hinv'. apply kernel_inv_ext. intros r c Hr Hc.
  rewrite length_seq. unfold done_before, threadsPerBlock. lia.
Qed.

(** The kernel on the full grid fills the mask with the words of
    [mask_word]. *)
Lemma nms_kernel_mask :
  ∃ mask,
    nms_kernel cb cb 64 n thresh bbox (replicate (n * cb) 0%Z) = Ok mask ∧
    length mask = n * cb ∧
    ∀ r c, r < n → c < cb →
      mask !! (r * cb + c) = Some (mask_word n thresh bbox r c).
Proof.
  unfold nms_kernel.
  destruct (for_each_inv (λ y, kernel_inv n thresh bbox cb y 0 0)
              (λ row_start,
                 for_each (λ col_start,
                   nms_kernel_block 64 n thresh bbox row_start col_start)
                   (seq 0 cb))
              (seq 0 cb) (replicate (n * cb) 0%Z))
    as (mask & Hrun & Hlen & Hinv).
  - split; [by rewrite length_replicate|]. intros r c Hr Hc.
    rewrite lookup_replicate_2 by by apply address_lt.
    rewrite decide_False; [done|]. unfold done_before. lia.
  - intros p y m [-> Hp]%lookup_seq. by apply kernel_row_step.
  - exists mask. split; [done|]. split; [done|].
    intros r c Hr Hc. rewrite (Hinv r c Hr Hc), decide_True; [done|].
    left. rewrite length_seq. pose proof (ceil_div_covers n).
    unfold threadsPerBlock. lia.
Qed.
End kernel.

(** C7, as the code has it: when the mask has fewer than [2^31] words,
    so that the kernel's 32-bit [int] holds every address of it, then on
    the grid of [col_blocks] by [col_blocks] blocks of 64 threads the
    kernel writes, for every box [r] and every column tile, a
    non-negative word whose bit [k] is set exactly when [k] is below 64,
    the box [col_tile * 64 + k] exists, it comes strictly after [r]'s
    position when it is in [r]'s own tile, and its IoU with box [r] is at
    or above the threshold. *)
Theorem bitmask_builder (bbox : list box) (thresh : Q) :
  let n := length bbox in
  let col_blocks := ceil_div n 64 in
  mask_fits_int n →
  ∃ mask,
    nms_kernel col_blocks col_blocks 64 n thresh bbox
               (replicate (n * col_blocks) 0%Z) = Ok mask ∧
    length mask = n * col_blocks ∧
    ∀ r col_tile, r < n → col_tile < col_blocks →
      ∃ w, mask !! (r * col_blocks + col_tile) = Some w ∧ (0 ≤ w)%Z ∧
           ∀ k : nat, Z.testbit w (Z.of_nat k)
                      = mask_bit n thresh bbox r col_tile k.
Proof.
  intros n col_blocks Hfits.
  destruct (nms_kernel_mask bbox thresh Hfits) as (mask & Hrun & Hlen & Hw).
  exists mask. split; [done|]. split; [done|].
  intros r c Hr Hc. exists (mask_word n thresh bbox r c).
  split; [by apply Hw|]. split; [by apply tile_word_nonneg|].
  intros k. apply mask_word_testbit.
Qed.

Lemma bitmask_builder_witness :
  mask_fits_int (length skewed_boxes) ∧
  let n := length skewed_boxes in
  let col_blocks := ceil_div n 64 in
  ∃ mask,
    nms_kernel col_blocks col_blocks 64 n (1 # 2) skewed_boxes
               (replicate (n * col_blocks) 0%Z) = Ok mask ∧
    length mask = n * col_blocks ∧
    ∀ r col_tile, r < n → col_tile < col_blocks →
      ∃ w, mask !! (r * col_blocks + col_tile) = Some w ∧ (0 ≤ w)%Z ∧
           ∀ k : nat, Z.testbit w (Z.of_nat k)
                      = mask_bit n (1 # 2) skewed_boxes r col_tile k.
Proof.
  split; [by vm_compute|].
  apply (bitmask_builder skewed_boxes (1 # 2)). by vm_compute.
Defined.

(** ** The mask address beyond 32 bits *)

(** The mask is within reach of the kernel's [int] up to 370703 boxes. *)
Lemma mask_fits_int_iff (n_bbox : nat) :
  mask_fits_int n_bbox ↔ n_bbox ≤ Z.to_nat 370703.
Proof.
  unfold mask_fits_int, ceil_div. split.
  - intros Hfits. apply Nat.nlt_ge. intros Hlt.
    assert (5793 ≤ Z.of_nat ((n_bbox + (64 - 1)) / 64))%Z by lia. nia.
  - intros Hle.
    assert (Z.of_nat ((n_bbox + (64 - 1)) / 64) ≤ 5793)%Z by lia. nia.
Qed.

(** The kernel stops at device accesses only. *)
Lemma mapM_dev_error {A B} (f : A → res B) (l : list A) e :
  (∀ x e, f x = Raise e → e = DeviceOutOfRange) →
  mapM f l = Raise e → e = DeviceOutOfRange.
Proof.
  intros Hf. revert e. induction l as [|x l IH]; intros e; simpl; [done|].
  destruct (f x) as [y|e'] eqn:Ex; simpl.
  - destruct (mapM f l) as [k|e']; simpl; [done|].
    intros [= <-]. by apply IH.
  - intros [= <-]. by eapply Hf.
Qed.

Lemma for_each_dev_error {A St} (body : A → St → res St) l s e :
  (∀ x s e, body x s = Raise e → e = DeviceOutOfRange) →
  for_each body l s = Raise e → e = DeviceOutOfRange.
Proof.
  intros Hb. revert s. induction l as [|x l IH]; intros s; simpl; [done|].
  destruct (body x s) as [s'|e'] eqn:Ex; simpl; [apply IH|].
  intros [= <-]. by eapply Hb.
Qed.

Lemma dev_load_dev_error {A} (a : list A) i e :
  dev_load a i = Raise e → e = DeviceOutOfRange.
Proof. unfold dev_load. destruct (a !! i); [done|]. by intros [= <-]. Qed.

Lemma mask_step_dev_error thresh dev_bbox cur_box_idx block_boxes i t e :
  mask_step thresh dev_bbox cur_box_idx block_boxes i t = Raise e →
  e = DeviceOutOfRange.
Proof.
  unfold mask_step.
  destruct (dev_load dev_bbox cur_box_idx) eqn:E1; simpl.
  - destruct (dev_load block_boxes i) eqn:E2; simpl; [done|].
    intros [= <-]. by eapply dev_load_dev_error.
  - intros [= <-]. by eapply dev_load_dev_error.
Qed.

Lemma nms_kernel_thread_dev_error n_bbox thresh dev_bbox y x block_boxes
    t dev_mask e :
  nms_kernel_thread n_bbox thresh dev_bbox y x block_boxes t dev_mask
  = Raise e →
  e = DeviceOutOfRange.
Proof.
  unfold nms_kernel_thread. destruct (t <? _); [|done].
  destruct (for_each _ _ _) as [w|e'] eqn:E; simpl.
  - unfold dev_store. case_decide; [done|]. by intros [= <-].
  - intros [= <-]. eapply for_each_dev_error; [|done].
    intros ???. apply mask_step_dev_error.
Qed.

Lemma nms_kernel_block_dev_error threads n_bbox thresh dev_bbox y x
    dev_mask e :
  nms_kernel_block threads n_bbox thresh dev_bbox y x dev_mask = Raise e →
  e = DeviceOutOfRange.
Proof.
  unfold nms_kernel_block.
  destruct (load_block_boxes _ _ _) as [block_boxes|e'] eqn:E; simpl.
  - apply for_each_dev_error. intros ???.
    apply nms_kernel_thread_dev_error.
  - intros [= <-]. eapply mapM_dev_error; [|done].
    intros ??. apply dev_load_dev_error.
Qed.

(** A loop stops when one of its turns stops whatever the state. *)
Lemma for_each_stops {A St} (body : A → St → res St) l x s :
  (∀ y s e, body y s = Raise e → e = DeviceOutOfRange) →
  x ∈ l → (∀ s, body x s = Raise DeviceOutOfRange) →
  for_each body l s = Raise DeviceOutOfRange.
Proof.
  intros Herr Hx Hstop. revert s.
  induction l as [|y l IH]; intros s; [by apply elem_of_nil in Hx|].
  simpl. destruct (body y s) as [s'|e] eqn:E; simpl.
  - apply elem_of_cons in Hx as [->|Hx]; [by rewrite Hstop in E|].
    by apply IH.
  - f_equal. by eapply Herr.
Qed.

(** With 370704 boxes the mask has 5793 words a row.  Thread 15 of the
    block [(1169, 5792)] holds the last box, 370703, and computes the
    address [370703 * 5793 + 1169 = 2^31], which wraps to [-2^31]. *)
Lemma nms_kernel_overflow (n_bbox : nat) thresh dev_bbox dev_mask :
  Z.of_nat n_bbox = 370704%Z →
  nms_kernel (ceil_div n_bbox 64) (ceil_div n_bbox 64) 64 n_bbox thresh
             dev_bbox dev_mask
  = Raise DeviceOutOfRange.
Proof.
  intros Hn.
  assert (Z.of_nat (ceil_div n_bbox 64) = 5793%Z) as Hcb
    by (unfold ceil_div; lia).
  unfold nms_kernel.
  apply (for_each_stops _ _ (Z.to_nat 5792)).
  { intros y s e. apply for_each_dev_error. intros ???.
    apply nms_kernel_block_dev_error. }
  { apply elem_of_seq. lia. }
  intros s.
  apply (for_each_stops _ _ (Z.to_nat 1169)).
  { intros ???. apply nms_kernel_block_dev_error. }
  { apply elem_of_seq. lia. }
  clear s. intros s. unfold nms_kernel_block.
  destruct (load_block_boxes _ _ _) as [block_boxes|e] eqn:E.
  2:{ simpl. f_equal. eapply mapM_dev_error; [|done].
      intros ??. apply dev_load_dev_error. }
  unfold mbind, res_bind.
  apply (for_each_stops _ _ 15).
  { intros ???. apply nms_kernel_thread_dev_error. }
  { apply elem_of_seq. lia. }
  clear s. intros s. unfold nms_kernel_thread.
  rewrite (proj2 (Nat.ltb_lt _ _)) by (unfold threadsPerBlock; lia).
  destruct (for_each _ _ _) as [w|e] eqn:Eloop;
    unfold mbind, res_bind; cbv beta iota.
  2:{ f_equal. eapply for_each_dev_error; [|done].
      intros ???. apply mask_step_dev_error. }
  rewrite DIVUP_ceil_div, Hcb.
  replace (Z.of_nat (threadsPerBlock * Z.to_nat 5792 + 15)) with 370703%Z
    by (unfold threadsPerBlock; lia).
  replace (Z.of_nat (Z.to_nat 1169)) with 1169%Z by lia.
  unfold dev_store. rewrite decide_False; [done|].
  change (int32 (int32 (370703 * 5793) + 1169)) with (-2147483648)%Z. lia.
Qed.

(** C7, as stated, fails at 370704 boxes: the mask has [2^31] words or
    more, the address of the last box's word in column tile 1169 wraps
    around to [-2^31], and the kernel writes outside [dev_mask]. *)
Lemma mask_address_overflows :
  let n := length crowd_boxes in
  let col_blocks := ceil_div n 64 in
  Z.of_nat n = 370704%Z ∧ Z.of_nat col_blocks = 5793%Z ∧
  int32 (int32 (370703 * 5793) + 1169) = (-2147483648)%Z ∧
  nms_kernel col_blocks col_blocks 64 n (1 # 2) crowd_boxes
             (replicate (n * col_blocks) 0%Z)
  = Raise DeviceOutOfRange.
Proof.
  assert (Z.of_nat (length crowd_boxes) = 370704%Z) as Hn
    by (unfold crowd_boxes; rewrite length_replicate; lia).
  cbv zeta. split; [done|]. split; [unfold ceil_div; lia|].
  split; [done|]. by apply nms_kernel_overflow.
Qed.

(** ** The mask reducer on the kernel's mask *)

Section reducer.
Context (bbox : list box) (thresh : Q) (mask : list Z).
Local Abbreviation n := (length bbox).
Local Abbreviation cb := (ceil_div (length bbox) 64).
Local Abbreviation ov :=
  (λ k i, overlaps thresh (bbox !!! k) (bbox !!! i)).
Hypothesis mask_words :
  ∀ r c, r < n → c < cb →
    mask !! (r * cb + c) = Some (mask_word n thresh bbox r c).

(** Row [i] of the mask marks the later boxes that box [i] overlaps. *)
Lemma mask_row_bit (i j : nat) :
  i < j < n →
  Z.testbit (mask !!! (i * cb + j / 64)) (Z.of_nat (j mod 64)) = ov i j.
Proof.
  intros Hij. pose proof (ceil_div_covers n).
  assert (i < n) as Hi by lia. assert (j / 64 < cb) as Hj by lia.
  rewrite (list_lookup_total_correct _ _ _ (mask_words i (j / 64) Hi Hj)).
  rewrite mask_word_testbit. unfold mask_bit, threadsPerBlock.
  replace (j / 64 * 64 + j mod 64) with j by lia.
  rewrite (proj2 (Nat.ltb_lt (j mod 64) 64)) by lia.
  rewrite (proj2 (Nat.ltb_lt j n)) by lia.
  destruct (i / 64 =? j / 64) eqn:E; [|done].
  apply Nat.eqb_eq in E.
  by rewrite (proj2 (Nat.ltb_lt (i mod 64) (j mod 64))) by lia.
Qed.

Lemma reduce_loop_greedy (m i : nat) (remaining : list Z) (acc : list nat) :
  i + m = n → length remaining = cb →
  (∀ j, i ≤ j < n →
     Z.testbit (remaining !!! (j / 64)) (Z.of_nat (j mod 64))
     = negb (existsb (λ k, ov k j) acc)) →
  reduce_loop mask 64 cb None (seq i m) remaining acc
  = greedy ov None (seq i m) acc.
Proof.
  revert i remaining acc.
  induction m as [|m IH]; intros i remaining acc Him Hlen Hrem; [done|].
  simpl. rewrite (Hrem i) by lia.
  destruct (existsb _ acc) eqn:Esup; simpl.
  { apply IH; [lia | done|]. intros j Hj. apply Hrem. lia. }
  apply IH; [lia | by rewrite length_imap|].
  intros j Hj. pose proof (ceil_div_covers n).
  rewrite (list_lookup_total_imap _ remaining (j / 64)) by lia.
  rewrite Z.land_spec, Z.lnot_spec, Hrem, mask_row_bit by lia.
  by rewrite existsb_app, negb_orb; simpl; rewrite orb_false_r.
Qed.

Lemma reduce_run_greedy :
  reduce_loop mask 64 cb None (seq 0 n)
              (replicate cb (Z.ones (Z.of_nat 64))) []
  = greedy ov None (seq 0 n) [].
Proof.
  apply reduce_loop_greedy; [done | by rewrite length_replicate|].
  intros j Hj. pose proof (ceil_div_covers n).
  rewrite lookup_total_replicate_2 by lia.
  by rewrite Z.ones_spec_low by lia.
Qed.

Lemma reduce_greedy :
  _nms_gpu_post mask n 64 cb None
  = (greedy ov None (seq 0 n) [], length (greedy ov None (seq 0 n) [])).
Proof. unfold _nms_gpu_post. by rewrite reduce_run_greedy. Qed.
End reducer.

(** ** The parallel selector without scores *)

Lemma cupy_index_seq {A} (a : list A) :
  cupy_index a (seq 0 (length a)) = Ok a.
Proof.
  unfold cupy_index. destruct a as [|x a]; [done|].
  pose (inh := populate x).
  rewrite (mapM_Ok _ (λ i, (x :: a) !!! i)).
  - f_equal. apply list_eq. intros i. rewrite list_lookup_fmap.
    destruct (decide (i < length (x :: a))).
    + rewrite lookup_seq_lt by done. simpl.
      by rewrite list_lookup_lookup_total_lt.
    + rewrite lookup_seq_ge by lia. by rewrite lookup_ge_None_2 by lia.
  - apply Forall_forall. intros i Hi%elem_of_seq.
    rewrite Nat.mod_small by lia. apply dev_load_Ok. lia.
Qed.

Lemma cupy_index_of_seq (n : nat) (idx : list nat) :
  Forall (λ i, i < n) idx → cupy_index (seq 0 n) idx = Ok idx.
Proof.
  intros Hidx. unfold cupy_index.
  rewrite (mapM_Ok _ id); [by rewrite list_fmap_id|].
  eapply Forall_impl; [done|]. intros i Hi. simpl.
  rewrite length_seq, Nat.mod_small by done.
  unfold dev_load. by rewrite lookup_seq_lt.
Qed.

(** Without scores the parallel selector is the greedy selection without
    a limit, cut by the slice [[:limit]]. *)
Lemma gpu_unscored_greedy bbox thresh limit :
  mask_fits_int (length bbox) →
  _non_maximum_suppression_gpu bbox thresh None limit
  = Ok (let selec :=
          greedy (λ k i, overlaps thresh (bbox !!! k) (bbox !!! i)) None
                 (seq 0 (length bbox)) [] in
        match limit with
        | Some l => slice_to l selec
        | None => selec
        end).
Proof.
  intros Hfits. unfold _non_maximum_suppression_gpu. case_decide as Hn.
  { apply nil_length_inv in Hn as ->. destruct limit as [l|]; [|done].
    simpl. unfold slice_to. destruct (0 <=? l)%Z; by rewrite take_nil. }
  rewrite cupy_index_seq. simpl. unfold _call_nms_kernel.
  destruct (nms_kernel_mask bbox thresh Hfits) as (mask & -> & Hlen & Hw).
  simpl. rewrite (reduce_run_greedy _ _ _ Hw).
  rewrite firstn_all. rewrite cupy_index_of_seq; [done|].
  apply Forall_forall.
  intros i [?%elem_of_nil|?%elem_of_seq]%greedy_elem_of_inv; [done | lia].
Qed.

(** Without scores, with no limit or a limit of at least one, and a mask
    within reach of the kernel's [int], the two strategies return the
    same index sequence. *)
Theorem strategies_agree_unscored (bbox : list box) (thresh : Q)
    (limit : option Z) :
  mask_fits_int (length bbox) →
  (∀ l, limit = Some l → (1 ≤ l)%Z) →
  non_maximum_suppression numpy bbox thresh None limit
  = non_maximum_suppression cupy bbox thresh None limit.
Proof.
  intros Hfits Hl. simpl.
  rewrite cpu_unscored_overlaps, gpu_unscored_greedy by done.
  f_equal. simpl.
  destruct limit as [l|]; [|done].
  specialize (Hl l eq_refl).
  rewrite greedy_limit_take by (simpl; lia).
  unfold slice_to. by rewrite (proj2 (Z.leb_le 0 l)) by lia.
Qed.

(** ** The sequential selector with scores *)

Lemma index_array_total `{Inhabited A} (a : list A) (idx : list nat) :
  Forall (λ i, i < length a) idx →
  index_array a idx = Ok ((a !!!.) <$> idx).
Proof.
  intros Hidx. apply mapM_Ok. eapply Forall_impl; [done|].
  intros i Hi. simpl. apply index_int_Ok.
  by apply list_lookup_lookup_total_lt.
Qed.

(** With as many scores as boxes, the sequential selector is the greedy
    selection over the reordered boxes with the test the loop computes:
    the area it takes for position [p] is that of the original box [p],
    not that of the box now at [p]. *)
Lemma cpu_scored_greedy bbox thresh score limit :
  length score = length bbox →
  let order := score_order score in
  let sorted_bbox := (bbox !!!.) <$> order in
  _non_maximum_suppression_cpu bbox thresh (Some score) limit
  = Ok ((order !!!.)
          <$> greedy (cpu_ov sorted_bbox (box_area <$> bbox) thresh) limit
                     (seq 0 (length bbox)) []).
Proof.
  intros Hl order sorted_bbox. unfold _non_maximum_suppression_cpu.
  case_decide as Hn; [by rewrite Hn|]. simpl.
  fold order. rewrite index_array_total.
  2:{ apply Forall_forall. intros i Hi%score_order_lt. lia. }
  simpl. fold sorted_bbox.
  assert (length sorted_bbox = length bbox) as Hs.
  { unfold sorted_bbox, order. by rewrite length_fmap, length_score_order. }
  destruct (cpu_loop_run sorted_bbox (box_area <$> bbox) thresh limit)
    as (selec & -> & Hsel & Hw); [rewrite length_fmap; lia|].
  simpl. rewrite index_array_total.
  - by rewrite Hw, Hs.
  - apply Forall_forall. intros i Hi%elem_of_where_lt.
    unfold order. rewrite length_score_order. lia.
Qed.

Lemma cpu_no_boxes thresh score limit :
  _non_maximum_suppression_cpu [] thresh score limit = Ok [].
Proof. done. Qed.

(** X16: a limit of at least one cuts the result of the sequential
    selector to its first [limit] entries, with or without scores: the
    result, or the error, is that of the same call without a limit. *)
Theorem limit_prefix_from_one (bbox : list box) (thresh : Q)
    (score : option (list Q)) (l : Z) :
  (1 ≤ l)%Z →
  _non_maximum_suppression_cpu bbox thresh score (Some l)
  = take (Z.to_nat l) <$> _non_maximum_suppression_cpu bbox thresh score None.
Proof.
  intros Hl. destruct score as [score|].
  2:{ rewrite !cpu_unscored_greedy. simpl. f_equal.
      apply greedy_limit_take. simpl. lia. }
  destruct (decide (length score = length bbox)) as [Heq|Hne].
  { rewrite !cpu_scored_greedy by done. simpl. f_equal.
    rewrite greedy_limit_take by (simpl; lia). by rewrite fmap_take. }
  destruct (decide (length bbox = 0)) as [Hb|Hb].
  { apply nil_length_inv in Hb as ->. rewrite !cpu_no_boxes. cbn.
    by rewrite take_nil. }
  destruct (decide (length score = 0)) as [Hs|Hs].
  { apply nil_length_inv in Hs as ->. rewrite !cpu_scored_empty. cbn.
    by rewrite take_nil. }
  destruct (decide (length score < length bbox)).
  - by rewrite !cpu_scored_shorter by lia.
  - by rewrite !cpu_scored_longer by lia.
Qed.

(** ** Running the selector on its own result *)

Lemma greedy_all ov todo acc :
  StronglySorted lt todo →
  (∀ k x, k ∈ acc → x ∈ todo → k < x) →
  (∀ k i, k < i → i ∈ todo → ov k i = false) →
  greedy ov None todo acc = acc ++ todo.
Proof.
  revert acc. induction todo as [|x todo IH]; intros acc Ht Hlt Hov; simpl.
  { by rewrite app_nil_r. }
  apply StronglySorted_cons in Ht as [Hx Ht]. rewrite Forall_forall in Hx.
  assert (existsb (λ k, ov k x) acc = false) as ->.
  { apply not_true_iff_false.
    intros (k & Hk%list_elem_of_In & Hk')%existsb_exists.
    rewrite Hov in Hk'; [done| |by left]. apply Hlt; [done | by left]. }
  rewrite IH, <- app_assoc; [done..| |].
  - intros k y [?| ->%list_elem_of_singleton]%elem_of_app Hy;
      [apply Hlt; [done | by right] | by apply Hx].
  - intros k i ??. apply Hov; [done | by right].
Qed.

(** X17: without scores and without a limit, the selector run on the
    boxes it has selected selects all of them. *)
Theorem selection_idempotent_unscored (bbox : list box) (thresh : Q) :
  ∃ result selected,
    _non_maximum_suppression_cpu bbox thresh None None = Ok result ∧
    index_array bbox result = Ok selected ∧
    _non_maximum_suppression_cpu selected thresh None None
    = Ok (seq 0 (length result)).
Proof.
  set (ov := λ k i, overlaps thresh (bbox !!! k) (bbox !!! i)).
  set (result := greedy ov None (seq 0 (length bbox)) []).
  assert (∀ i, i ∈ result → i < length bbox) as Hlt.
  { intros i [?%elem_of_nil|?%elem_of_seq]%greedy_elem_of_inv; [done | lia]. }
  assert (StronglySorted lt result) as Hsorted.
  { apply greedy_sorted; [constructor | apply StronglySorted_seq|].
    by intros ?? ?%elem_of_nil. }
  exists result, ((bbox !!!.) <$> result).
  split; [apply cpu_unscored_overlaps|].
  split; [apply index_array_total; by apply Forall_forall|].
  rewrite cpu_unscored_overlaps, length_fmap. f_equal.
  apply (greedy_all _ _ []);
    [apply StronglySorted_seq | by intros ?? ?%elem_of_nil|].
  intros p q Hpq Hq%elem_of_seq.
  destruct (lookup_lt_is_Some_2 result p) as [j Hj]; [lia|].
  destruct (lookup_lt_is_Some_2 result q) as [i Hi]; [lia|].
  rewrite (list_lookup_total_fmap (bbox !!!.) result p) by lia.
  rewrite (list_lookup_total_fmap (bbox !!!.) result q) by lia.
  rewrite (list_lookup_total_correct _ _ _ Hj).
  rewrite (list_lookup_total_correct _ _ _ Hi).
  assert (j < i) as Hji by by eapply (StronglySorted_lookup lt result p q).
  assert (i ∈ result) as Hin by by eapply list_elem_of_lookup_2.
  apply greedy_elem_of in Hin as [?%elem_of_nil|[_ Hov]];
    [done| |apply StronglySorted_seq|by intros ?? ?%elem_of_nil].
  apply Hov; [|done]. by eapply list_elem_of_lookup_2.
Qed.

(** ** The parallel selector with scores *)

Lemma cupy_index_total `{Inhabited A} (a : list A) (idx : list nat) :
  Forall (λ i, i < length a) idx →
  cupy_index a idx = Ok ((a !!!.) <$> idx).
Proof.
  intros Hidx. apply mapM_Ok. eapply Forall_impl; [done|].
  intros i Hi. simpl. rewrite Nat.mod_small by done. by apply dev_load_Ok.
Qed.

(** With as many scores as boxes, the parallel selector is the greedy
    selection over the reordered boxes with the overlap bit of those
    boxes, mapped back through the order and cut by [[:limit]]. *)
Lemma gpu_scored_greedy bbox thresh score limit :
  mask_fits_int (length bbox) →
  length score = length bbox →
  let order := score_order score in
  let sorted_bbox := (bbox !!!.) <$> order in
  let selec :=
    (order !!!.)
      <$> greedy (λ k i, overlaps thresh (sorted_bbox !!! k)
                                  (sorted_bbox !!! i))
                 None (seq 0 (length bbox)) [] in
  _non_maximum_suppression_gpu bbox thresh (Some score) limit
  = Ok (match limit with
        | Some l => slice_to l selec
        | None => selec
        end).
Proof.
  intros Hfits Hl order sorted_bbox selec.
  unfold _non_maximum_suppression_gpu.
  case_decide as Hn.
  { apply nil_length_inv in Hn. subst bbox.
    apply nil_length_inv in Hl. subst score.
    change selec with (@nil nat). destruct limit as [l|]; [|done].
    unfold slice_to. destruct (0 <=? l)%Z; by rewrite take_nil. }
  fold order. rewrite cupy_index_total.
  2:{ apply Forall_forall. intros i Hi%score_order_lt. lia. }
  simpl. fold sorted_bbox.
  assert (length bbox = length sorted_bbox) as Hs.
  { unfold sorted_bbox, order. by rewrite length_fmap, length_score_order. }
  unfold _call_nms_kernel. rewrite Hs. rewrite Hs in Hfits.
  destruct (nms_kernel_mask sorted_bbox thresh Hfits)
    as (mask & -> & Hlen & Hw).
  simpl. rewrite (reduce_run_greedy _ _ _ Hw), <- Hs.
  rewrite firstn_all, cupy_index_total; [done|].
  apply Forall_forall.
  intros i [?%elem_of_nil|?%elem_of_seq]%greedy_elem_of_inv; [done|].
  unfold order. rewrite length_score_order. lia.
Qed.

(** With as many scores as boxes, and a mask within reach of the kernel's
    [int], the parallel selector keeps no overlapping pair: of two
    returned indices the earlier, of higher priority, does not overlap
    the later at or above the threshold. *)
Theorem parallel_selector_no_overlap (bbox : list box) (thresh : Q)
    (score : list Q) :
  mask_fits_int (length bbox) →
  length score = length bbox →
  ∃ result,
    _non_maximum_suppression_gpu bbox thresh (Some score) None = Ok result ∧
    ∀ p q i j, p < q → result !! p = Some i → result !! q = Some j →
               overlaps thresh (bbox !!! i) (bbox !!! j) = false.
Proof.
  intros Hfits Hl. rewrite gpu_scored_greedy by done. cbv zeta.
  set (order := score_order score).
  set (sorted_bbox := (bbox !!!.) <$> order).
  set (ov := λ k i, overlaps thresh (sorted_bbox !!! k) (sorted_bbox !!! i)).
  set (G := greedy ov None (seq 0 (length bbox)) []).
  eexists. split; [done|].
  intros p q i j Hpq Hp Hq.
  rewrite list_lookup_fmap in Hp, Hq.
  destruct (G !! p) as [a|] eqn:Ea; [|done].
  destruct (G !! q) as [b|] eqn:Eb; [|done].
  simpl in Hp, Hq. simplify_eq.
  assert (StronglySorted lt G) as Hsorted.
  { apply greedy_sorted; [constructor | apply StronglySorted_seq|].
    by intros ?? ?%elem_of_nil. }
  assert (a < b) as Hab by by eapply (StronglySorted_lookup lt G p q).
  assert (b ∈ G) as Hin by by eapply list_elem_of_lookup_2.
  assert (b < length bbox) as Hb.
  { apply greedy_elem_of_inv in Hin as [?%elem_of_nil|?%elem_of_seq];
      [done | lia]. }
  apply greedy_elem_of in Hin as [?%elem_of_nil|[_ Hov]];
    [done| |apply StronglySorted_seq|by intros ?? ?%elem_of_nil].
  specialize (Hov a (list_elem_of_lookup_2 _ _ _ Ea) Hab).
  unfold ov, sorted_bbox in Hov.
  rewrite (list_lookup_total_fmap (bbox !!!.) order a) in Hov
    by (unfold order; rewrite length_score_order; lia).
  by rewrite (list_lookup_total_fmap (bbox !!!.) order b) in Hov
    by (unfold order; rewrite length_score_order; lia).
Qed.

(** The slice [[:limit]] of the parallel selector cuts the result, or
    passes on the failure, of the same call without a limit. *)
Lemma gpu_limit_slice (bbox : list box) (thresh : Q)
    (score : option (list Q)) (l : Z) :
  _non_maximum_suppression_gpu bbox thresh score (Some l)
  = slice_to l <$> _non_maximum_suppression_gpu bbox thresh score None.
Proof.
  unfold _non_maximum_suppression_gpu. case_decide.
  { cbn. unfold slice_to. destruct (0 <=? l)%Z; by rewrite take_nil. }
  destruct (cupy_index bbox _) as [sorted_bbox|]; [|done]. simpl.
  destruct (_call_nms_kernel _ _ _) as [[selec n_selec]|]; [|done]. simpl.
  by destruct (cupy_index _ _).
Qed.

(** ** A single box *)

(** A box with no peers is selected, whatever the threshold. *)
Lemma single_box_selected (b : box) (thresh : Q) (limit : option Z) :
  non_maximum_suppression numpy [b] thresh None limit = Ok [0].
Proof.
  simpl. rewrite cpu_unscored_greedy. simpl.
  by destruct (limit_hit limit 1).
Qed.

Lemma single_box_selected_parallel (b : box) (thresh : Q) :
  non_maximum_suppression cupy [b] thresh None None = Ok [0].
Proof. simpl. by rewrite gpu_unscored_greedy by by vm_compute. Qed.

(** ** The sequential selector, scored or not *)

Lemma fmap_lookup_total_seq `{Inhabited A} (l : list A) :
  (l !!!.) <$> seq 0 (length l) = l.
Proof.
  apply list_eq. intros i. rewrite list_lookup_fmap.
  destruct (decide (i < length l)).
  - rewrite lookup_seq_lt by done. simpl.
    by rewrite list_lookup_lookup_total_lt.
  - rewrite lookup_seq_ge by lia. by rewrite lookup_ge_None_2 by lia.
Qed.

Lemma fmap_seq_lookup_total (n : nat) (l : list nat) :
  Forall (λ i, i < n) l → (seq 0 n !!!.) <$> l = l.
Proof.
  induction 1 as [|i l Hi _ IH]; csimpl; [done|].
  by rewrite IH, lookup_total_seq_lt.
Qed.

Lemma length_priority_order bbox score :
  scores_aligned bbox score →
  length (priority_order bbox score) = length bbox.
Proof.
  destruct score as [s|]; simpl; intros Hl.
  - by rewrite length_score_order.
  - by rewrite length_seq.
Qed.

Lemma priority_order_Permutation bbox score :
  scores_aligned bbox score →
  priority_order bbox score ≡ₚ seq 0 (length bbox).
Proof.
  destruct score as [s|]; simpl; intros Hl; [|done].
  by rewrite score_order_Permutation, Hl.
Qed.

Lemma priority_order_elem_lt bbox score (i : nat) :
  scores_aligned bbox score →
  i ∈ priority_order bbox score → i < length bbox.
Proof.
  intros Hl Hin. rewrite priority_order_Permutation in Hin by done.
  apply elem_of_seq in Hin. lia.
Qed.

Lemma greedy_lt ov limit (n i : nat) :
  i ∈ greedy ov limit (seq 0 n) [] → i < n.
Proof.
  intros [?%elem_of_nil|?%elem_of_seq]%greedy_elem_of_inv; [done | lia].
Qed.

(** Whenever the scores are aligned with the boxes, the sequential
    selector is the greedy selection over the boxes in priority order,
    with the test the loop computes, mapped back through the order. *)
Lemma cpu_greedy bbox thresh score limit :
  scores_aligned bbox score →
  let order := priority_order bbox score in
  let sorted_bbox := (bbox !!!.) <$> order in
  _non_maximum_suppression_cpu bbox thresh score limit
  = Ok ((order !!!.)
          <$> greedy (cpu_ov sorted_bbox (box_area <$> bbox) thresh) limit
                     (seq 0 (length bbox)) []).
Proof.
  destruct score as [s|]; simpl; intros Hl.
  { by apply cpu_scored_greedy. }
  rewrite cpu_unscored_greedy, fmap_lookup_total_seq. f_equal.
  symmetry. apply fmap_seq_lookup_total, Forall_forall.
  intros i. apply greedy_lt.
Qed.

Lemma greedy_sublist ov limit todo acc :
  greedy ov limit todo acc `sublist_of` acc ++ todo.
Proof.
  revert acc. induction todo as [|x todo IH]; intros acc; simpl.
  { by rewrite app_nil_r. }
  destruct (existsb _ acc).
  { etrans; [apply IH|]. apply sublist_app; [done | by apply sublist_cons]. }
  destruct (limit_hit _ _).
  - apply sublist_app; [done|]. apply sublist_skip, sublist_nil_l.
  - etrans; [apply IH|]. by rewrite <- app_assoc.
Qed.

Lemma greedy_head ov limit (m : nat) :
  ∃ rest, greedy ov limit (seq 0 (S m)) [] = 0 :: rest.
Proof.
  simpl. destruct (limit_hit limit 1); [by exists []|].
  destruct (greedy_prefix ov limit (seq 1 m) [0]) as [rest ->].
  by exists rest.
Qed.

(** X1: when the scores are aligned with the boxes, the sequential
    selector returns a subsequence of the priority order: the indices come
    in the order in which they were scanned, none twice, each one the index
    of a box. *)
Theorem result_follows_priority_order (bbox : list box) (thresh : Q)
    (score : option (list Q)) (limit : option Z) :
  scores_aligned bbox score →
  ∃ result,
    _non_maximum_suppression_cpu bbox thresh score limit = Ok result ∧
    result `sublist_of` priority_order bbox score ∧
    NoDup result ∧
    Forall (λ i, i < length bbox) result.
Proof.
  intros Hl. rewrite cpu_greedy by done. cbv zeta.
  set (order := priority_order bbox score).
  set (G := greedy _ limit _ _).
  assert ((order !!!.) <$> G `sublist_of` order) as Hsub.
  { assert (G `sublist_of` seq 0 (length order)) as Hs.
    { unfold order. rewrite length_priority_order by done.
      apply (greedy_sublist _ _ _ []). }
    apply (fmap_sublist (order !!!.)) in Hs.
    by rewrite fmap_lookup_total_seq in Hs. }
  assert (NoDup order) as Hnd.
  { unfold order. rewrite priority_order_Permutation by done.
    apply NoDup_seq. }
  eexists. split; [done|]. split; [done|].
  split; [by eapply sublist_NoDup|].
  apply Forall_forall. intros i Hi.
  assert (i ∈ order) as Hin by by eapply elem_of_sublist.
  unfold order in Hin. rewrite priority_order_Permutation in Hin by done.
  apply elem_of_seq in Hin. lia.
Qed.

Lemma result_follows_priority_order_witness :
  scores_aligned skewed_boxes (Some skewed_scores) ∧
  ∃ result,
    _non_maximum_suppression_cpu skewed_boxes (1 # 2) (Some skewed_scores)
                                 (Some 2%Z) = Ok result ∧
    result `sublist_of` priority_order skewed_boxes (Some skewed_scores) ∧
    NoDup result ∧
    Forall (λ i, i < length skewed_boxes) result.
Proof.
  split; [reflexivity|].
  apply (result_follows_priority_order skewed_boxes (1 # 2)
           (Some skewed_scores) (Some 2%Z)).
  reflexivity.
Defined.

(** X2: on a non-empty input with aligned scores, the box of highest
    priority is always selected and is the first index returned, whatever
    the threshold and the limit. *)
Theorem top_priority_box_first (bbox : list box) (thresh : Q)
    (score : option (list Q)) (limit : option Z) :
  scores_aligned bbox score → bbox ≠ [] →
  ∃ rest,
    _non_maximum_suppression_cpu bbox thresh score limit
    = Ok (priority_order bbox score !!! 0 :: rest).
Proof.
  intros Hl Hne. rewrite cpu_greedy by done. cbv zeta.
  destruct bbox as [|b bbox]; [done|].
  change (length (b :: bbox)) with (S (length bbox)).
  destruct (greedy_head
              (cpu_ov ((λ i, (b :: bbox) !!! i)
                         <$> priority_order (b :: bbox) score)
                      (box_area <$> b :: bbox) thresh)
              limit (length bbox)) as [rest ->].
  by eexists.
Qed.

Lemma top_priority_box_first_witness :
  scores_aligned skewed_boxes (Some skewed_scores) ∧ skewed_boxes ≠ [] ∧
  ∃ rest,
    _non_maximum_suppression_cpu skewed_boxes (1 # 2) (Some skewed_scores)
                                 None
    = Ok (priority_order skewed_boxes (Some skewed_scores) !!! 0 :: rest).
Proof.
  split; [reflexivity|]. split; [discriminate|].
  apply (top_priority_box_first skewed_boxes (1 # 2)
           (Some skewed_scores) None); [reflexivity | discriminate].
Defined.

(** X3: the loop tests the limit only after it has accepted a box, so
    on a non-empty input every limit of at most one, zero and the
    negative ones included, returns exactly the box of highest priority. *)
Theorem limit_at_most_one_returns_top (bbox : list box) (thresh : Q)
    (score : option (list Q)) (l : Z) :
  scores_aligned bbox score → bbox ≠ [] → (l ≤ 1)%Z →
  _non_maximum_suppression_cpu bbox thresh score (Some l)
  = Ok [priority_order bbox score !!! 0].
Proof.
  intros Hl Hne Hle. rewrite cpu_greedy by done. cbv zeta.
  destruct bbox as [|b bbox]; [done|]. simpl.
  by rewrite (proj2 (Z.leb_le l (Z.of_nat 1))) by done.
Qed.

Lemma limit_at_most_one_returns_top_witness :
  scores_aligned apart_boxes None ∧ apart_boxes ≠ [] ∧ (-3 ≤ 1)%Z ∧
  _non_maximum_suppression_cpu apart_boxes (1 # 2) None (Some (-3)%Z)
  = Ok [priority_order apart_boxes None !!! 0].
Proof.
  split; [exact I|]. split; [discriminate|]. split; [lia|].
  apply (limit_at_most_one_returns_top apart_boxes (1 # 2) None (-3)%Z);
    [exact I | discriminate | lia].
Defined.

(** ** The overlap metric *)

Lemma dev_interS_bounds (a b : box) :
  well_formed a → well_formed b →
  (0 <= dev_interS a b)%Q ∧
  (dev_interS a b <= box_area a)%Q ∧ (dev_interS a b <= box_area b)%Q.
Proof.
  intros [Hax Hay] [Hbx Hby]. unfold dev_interS, box_area.
  set (lx := Qmax (x_min a) (x_min b)). set (rx := Qmin (x_max a) (x_max b)).
  set (ly := Qmax (y_min a) (y_min b)). set (ry := Qmin (y_max a) (y_max b)).
  assert (x_min a <= lx ∧ x_min b <= lx ∧ rx <= x_max a ∧ rx <= x_max b)%Q
    as (?&?&?&?).
  { subst lx rx. repeat split;
      auto using Q.le_max_l, Q.le_max_r, Q.le_min_l, Q.le_min_r. }
  assert (y_min a <= ly ∧ y_min b <= ly ∧ ry <= y_max a ∧ ry <= y_max b)%Q
    as (?&?&?&?).
  { subst ly ry. repeat split;
      auto using Q.le_max_l, Q.le_max_r, Q.le_min_l, Q.le_min_r. }
  set (w := Qmax (rx - lx) 0). set (h := Qmax (ry - ly) 0).
  assert (0 <= w ∧ w <= x_max a - x_min a ∧ w <= x_max b - x_min b)%Q
    as (?&?&?).
  { subst w. split; [apply Q.le_max_r|]. split; apply Q.max_lub; lra. }
  assert (0 <= h ∧ h <= y_max a - y_min a ∧ h <= y_max b - y_min b)%Q
    as (?&?&?).
  { subst h. split; [apply Q.le_max_r|]. split; apply Q.max_lub; lra. }
  repeat split; nra.
Qed.

Lemma Qdiv_0_l (x y : Q) : (x == 0)%Q → (x / y == 0)%Q.
Proof. intros ->. unfold Qdiv. ring. Qed.

Lemma devIoU_unit_or_nan (a b : box) :
  well_formed a → well_formed b → unit_or_nan (devIoU a b).
Proof.
  intros Ha Hb. destruct (dev_interS_bounds a b Ha Hb) as (HI & HIa & HIb).
  unfold devIoU, fdiv. fold (box_area a) (box_area b).
  set (I := dev_interS a b) in *.
  set (U := (box_area a + box_area b - I)%Q).
  assert (I <= U)%Q as HIU by (subst U; lra).
  destruct (Qeq_bool U 0) eqn:EU.
  - apply Qeq_bool_iff in EU.
    rewrite (proj2 (Qeq_bool_iff I 0)); [done|]. lra.
  - apply Qeq_bool_false in EU. simpl.
    assert (0 < U)%Q as HU.
    { destruct (Qle_lt_or_eq 0 U) as [?|E]; [lra | done|].
      destruct EU. by symmetry. }
    split.
    + apply Qle_shift_div_l; [done | lra].
    + apply Qle_shift_div_r; [done | lra].
Qed.

(** X4: the IoU of two well-formed boxes is never infinite: it is a
    number between 0 and 1, or not a number when the union area is zero. *)
Theorem iou_between_zero_and_one (a b : box) :
  well_formed a → well_formed b → unit_or_nan (devIoU a b).
Proof. apply devIoU_unit_or_nan. Qed.

Lemma iou_between_zero_and_one_witness :
  well_formed (Box 0 0 10 10) ∧ well_formed (Box 1 1 11 11) ∧
  unit_or_nan (devIoU (Box 0 0 10 10) (Box 1 1 11 11)).
Proof.
  assert (well_formed (Box 0 0 10 10)) as Ha
    by (unfold well_formed, Qle; simpl; lia).
  assert (well_formed (Box 1 1 11 11)) as Hb
    by (unfold well_formed, Qle; simpl; lia).
  split; [exact Ha|]. split; [exact Hb|].
  exact (iou_between_zero_and_one _ _ Ha Hb).
Defined.

(** X5: the overlap bit does not depend on the order of the two boxes. *)
Theorem overlap_symmetric (thresh : Q) (a b : box) :
  overlaps thresh a b = overlaps thresh b a.
Proof. unfold overlaps. apply fge_proper; [apply devIoU_sym | done]. Qed.




(** ** Boxes that do not overlap, and thresholds outside [0, 1] *)

Lemma cpu_inter_disjoint (a b : box) : disjoint a b → (cpu_inter a b == 0)%Q.
Proof.
  intros Hd. unfold cpu_inter.
  set (lx := Qmax (x_min a) (x_min b)). set (rx := Qmin (x_max a) (x_max b)).
  set (ly := Qmax (y_min a) (y_min b)). set (ry := Qmin (y_max a) (y_max b)).
  assert (x_min a <= lx ∧ x_min b <= lx ∧ rx <= x_max a ∧ rx <= x_max b)%Q
    as (?&?&?&?).
  { subst lx rx. repeat split;
      auto using Q.le_max_l, Q.le_max_r, Q.le_min_l, Q.le_min_r. }
  assert (y_min a <= ly ∧ y_min b <= ly ∧ ry <= y_max a ∧ ry <= y_max b)%Q
    as (?&?&?&?).
  { subst ly ry. repeat split;
      auto using Q.le_max_l, Q.le_max_r, Q.le_min_l, Q.le_min_r. }
  assert (Qltb lx rx && Qltb ly ry = false) as ->; [|ring].
  apply andb_false_iff. rewrite !Qltb_ge.
  destruct Hd as [?|[?|[?|?]]]; [left | left | right | right]; lra.
Qed.

Lemma disjoint_sym (a b : box) : disjoint a b → disjoint b a.
Proof. unfold disjoint. tauto. Qed.

Lemma fge_fdiv_zero (x y t : Q) :
  (x == 0)%Q → (0 < t)%Q → fge (fdiv x y) t = false.
Proof.
  intros Hx Ht. unfold fdiv.
  destruct (Qeq_bool y 0).
  { by rewrite (proj2 (Qeq_bool_iff x 0)) by done. }
  simpl. apply not_true_iff_false. rewrite Qle_bool_iff, Qdiv_0_l by done.
  lra.
Qed.

Lemma pairwise_disjoint_lookup (bbox : list box) i j a b :
  pairwise_disjoint bbox → i < j →
  bbox !! i = Some a → bbox !! j = Some b → disjoint a b.
Proof.
  revert i j. induction bbox as [|c bbox IH]; intros i j Hd Hij Ha Hb; [done|].
  destruct Hd as [Hc Hrest].
  destruct j as [|j]; [lia|]. destruct i as [|i]; simpl in *.
  - injection Ha as ->. rewrite Forall_forall in Hc.
    apply Hc. by eapply list_elem_of_lookup_2.
  - eapply IH; [done| |done..]. lia.
Qed.

Lemma greedy_none_suppressed ov (n : nat) :
  (∀ k i, k < i < n → ov k i = false) →
  greedy ov None (seq 0 n) [] = seq 0 n.
Proof.
  intros Hov. apply (greedy_all _ _ []);
    [apply StronglySorted_seq | by intros ?? ?%elem_of_nil|].
  intros k i Hki Hi%elem_of_seq. apply Hov. lia.
Qed.

(** X7: boxes that pairwise share no interior point are all selected,
    in priority order, for every positive threshold, with or without
    scores: an empty intersection gives the test a zero numerator, whatever
    areas it reads. *)
Theorem disjoint_boxes_all_kept (bbox : list box) (thresh : Q)
    (score : option (list Q)) :
  scores_aligned bbox score → (0 < thresh)%Q → pairwise_disjoint bbox →
  _non_maximum_suppression_cpu bbox thresh score None
  = Ok (priority_order bbox score).
Proof.
  intros Hl Ht Hd. rewrite cpu_greedy by done. cbv zeta.
  set (order := priority_order bbox score).
  assert (length order = length bbox) as Hlen
    by by apply length_priority_order.
  assert (NoDup order) as Hnd.
  { unfold order. rewrite priority_order_Permutation by done.
    apply NoDup_seq. }
  assert (∀ p, p < length bbox → order !!! p < length bbox) as Hlt.
  { intros p Hp.
    apply (priority_order_elem_lt bbox score); [done|].
    apply list_elem_of_lookup_total_2. fold order. lia. }
  rewrite greedy_none_suppressed.
  { by rewrite <- Hlen, fmap_lookup_total_seq. }
  intros k i Hki. unfold cpu_ov, jaccard.
  apply fge_fdiv_zero; [|done]. apply cpu_inter_disjoint.
  rewrite !(list_lookup_total_fmap (bbox !!!.) order) by lia.
  assert (order !!! i ≠ order !!! k) as Hne.
  { intros Heq.
    assert (i = k); [|lia].
    apply (NoDup_lookup order i k (order !!! i) Hnd).
    - apply list_lookup_lookup_total_lt. lia.
    - rewrite Heq. apply list_lookup_lookup_total_lt. lia. }
  pose proof (Hlt i) as Hi. pose proof (Hlt k) as Hk.
  destruct (decide (order !!! i < order !!! k)).
  - eapply (pairwise_disjoint_lookup bbox (order !!! i) (order !!! k));
      [done..| |]; apply list_lookup_lookup_total_lt; lia.
  - apply disjoint_sym.
    eapply (pairwise_disjoint_lookup bbox (order !!! k) (order !!! i));
      [done | lia | |]; apply list_lookup_lookup_total_lt; lia.
Qed.

Lemma disjoint_boxes_all_kept_witness :
  scores_aligned apart_boxes (Some [1 # 10; 9 # 10]%Q) ∧
  (0 < 1 # 2)%Q ∧ pairwise_disjoint apart_boxes ∧
  _non_maximum_suppression_cpu apart_boxes (1 # 2)
                               (Some [1 # 10; 9 # 10]%Q) None
  = Ok (priority_order apart_boxes (Some [1 # 10; 9 # 10]%Q)).
Proof.
  assert (pairwise_disjoint apart_boxes) as Hd.
  { split; [|by split].
    constructor; [|constructor]. left. unfold Qle. simpl. lia. }
  split; [reflexivity|]. split; [reflexivity|]. split; [exact Hd|].
  exact (disjoint_boxes_all_kept apart_boxes (1 # 2)
           (Some [1 # 10; 9 # 10]%Q) eq_refl eq_refl Hd).
Defined.

Lemma fge_unit_or_nan (v : fval) (t : Q) :
  unit_or_nan v → (1 < t)%Q → fge v t = false.
Proof.
  destruct v as [q| | |]; simpl; try done. intros [_ Hq] Ht.
  apply not_true_iff_false. rewrite Qle_bool_iff. lra.
Qed.

(** X8: without scores, a threshold above 1 suppresses nothing among
    well-formed boxes: every index is returned, in index order. *)
Theorem threshold_above_one_keeps_all (bbox : list box) (thresh : Q) :
  Forall well_formed bbox → (1 < thresh)%Q →
  _non_maximum_suppression_cpu bbox thresh None None
  = Ok (seq 0 (length bbox)).
Proof.
  intros Hwf Ht. rewrite cpu_unscored_overlaps. f_equal.
  apply greedy_none_suppressed. intros k i Hki.
  rewrite Forall_lookup in Hwf.
  apply fge_unit_or_nan; [|done].
  apply devIoU_unit_or_nan;
    (eapply Hwf, list_lookup_lookup_total_lt; lia).
Qed.

Lemma threshold_above_one_keeps_all_witness :
  Forall well_formed skewed_boxes ∧ (1 < 3 # 2)%Q ∧
  _non_maximum_suppression_cpu skewed_boxes (3 # 2) None None
  = Ok (seq 0 (length skewed_boxes)).
Proof.
  assert (Forall well_formed skewed_boxes) as Hwf
    by (repeat constructor; unfold Qle; simpl; lia).
  split; [exact Hwf|]. split; [reflexivity|].
  exact (threshold_above_one_keeps_all skewed_boxes (3 # 2) Hwf eq_refl).
Defined.







(** ** Scores that leave the areas in place *)

Lemma cpu_ov_same_areas (bbox sorted_bbox : list box) (thresh : Q)
    (A : Q) (k i : nat) :
  k < length bbox → i < length bbox → length sorted_bbox = length bbox →
  Forall (λ b, box_area b == A)%Q bbox →
  Forall (λ b, box_area b == A)%Q sorted_bbox →
  cpu_ov sorted_bbox (box_area <$> bbox) thresh k i
  = overlaps thresh (sorted_bbox !!! k) (sorted_bbox !!! i).
Proof.
  intros Hk Hi Hlen Ha Hs. unfold cpu_ov, overlaps.
  rewrite (list_lookup_total_fmap box_area bbox k) by done.
  rewrite (list_lookup_total_fmap box_area bbox i) by done.
  rewrite Forall_lookup in Ha. rewrite Forall_lookup in Hs.
  assert (∀ p, p < length bbox →
               (box_area (bbox !!! p) == box_area (sorted_bbox !!! p))%Q)
    as Heq.
  { intros p Hp.
    rewrite (Ha p (bbox !!! p))
      by (apply list_lookup_lookup_total_lt; lia).
    rewrite (Hs p (sorted_bbox !!! p))
      by (apply list_lookup_lookup_total_lt; lia).
    reflexivity. }
  apply fge_proper; [|done].
  etrans; [|apply devIoU_sym]. etrans; [|apply jaccard_devIoU].
  unfold jaccard. apply fdiv_proper; [done|].
  by rewrite (Heq i), (Heq k) by done.
Qed.

(** X11: with as many scores as boxes and all boxes of one area, the
    sequential selector keeps no overlapping pair: of two returned indices
    the earlier, of higher priority, does not overlap the later at or
    above the threshold.  With equal areas it does not matter that the
    areas are read at the positions of the reordered boxes. *)
Theorem equal_areas_no_overlap (bbox : list box) (thresh : Q)
    (score : list Q) (A : Q) :
  length score = length bbox →
  Forall (λ b, box_area b == A)%Q bbox →
  ∃ result,
    _non_maximum_suppression_cpu bbox thresh (Some score) None = Ok result ∧
    ∀ p q i j, p < q → result !! p = Some i → result !! q = Some j →
               overlaps thresh (bbox !!! i) (bbox !!! j) = false.
Proof.
  intros Hl Ha. rewrite cpu_scored_greedy by done. cbv zeta.
  set (order := score_order score).
  set (sorted_bbox := (bbox !!!.) <$> order).
  assert (length order = length bbox) as Hlen
    by (unfold order; by rewrite length_score_order).
  assert (length sorted_bbox = length bbox) as Hslen
    by (unfold sorted_bbox; by rewrite length_fmap).
  assert (Forall (λ b, box_area b == A)%Q sorted_bbox) as Hs.
  { apply Forall_fmap, Forall_forall. intros p Hp%score_order_lt. simpl.
    rewrite Forall_lookup in Ha.
    apply (Ha p), list_lookup_lookup_total_lt. lia. }
  set (ov := λ k i, overlaps thresh (sorted_bbox !!! k) (sorted_bbox !!! i)).
  rewrite (greedy_ext _ ov).
  2:{ intros k i Hk%elem_of_seq Hi%elem_of_seq.
      apply (cpu_ov_same_areas bbox sorted_bbox thresh A); [lia..|done|done]. }
  set (G := greedy ov None (seq 0 (length bbox)) []).
  eexists. split; [done|].
  intros p q i j Hpq Hp Hq.
  rewrite list_lookup_fmap in Hp, Hq.
  destruct (G !! p) as [a|] eqn:Ea; [|done].
  destruct (G !! q) as [b|] eqn:Eb; [|done].
  simpl in Hp, Hq. simplify_eq.
  assert (StronglySorted lt G) as Hsorted.
  { apply greedy_sorted; [constructor | apply StronglySorted_seq|].
    by intros ?? ?%elem_of_nil. }
  assert (a < b) as Hab by by eapply (StronglySorted_lookup lt G p q).
  assert (b ∈ G) as Hin by by eapply list_elem_of_lookup_2.
  assert (b < length bbox) as Hb by by eapply greedy_lt.
  apply greedy_elem_of in Hin as [?%elem_of_nil|[_ Hov]];
    [done| |apply StronglySorted_seq|by intros ?? ?%elem_of_nil].
  specialize (Hov a (list_elem_of_lookup_2 _ _ _ Ea) Hab).
  unfold ov, sorted_bbox in Hov.
  rewrite (list_lookup_total_fmap (bbox !!!.) order a) in Hov by lia.
  by rewrite (list_lookup_total_fmap (bbox !!!.) order b) in Hov by lia.
Qed.

Lemma equal_areas_no_overlap_witness :
  let bbox := [Box 0 0 10 10; Box 1 1 11 11; Box 20 20 30 30] in
  let score := [1 # 10; 9 # 10; 5 # 10]%Q in
  length score = length bbox ∧
  Forall (λ b, box_area b == 100)%Q bbox ∧
  ∃ result,
    _non_maximum_suppression_cpu bbox (1 # 2) (Some score) None = Ok result ∧
    ∀ p q i j, p < q → result !! p = Some i → result !! q = Some j →
               overlaps (1 # 2) (bbox !!! i) (bbox !!! j) = false.
Proof.
  intros bbox score.
  assert (Forall (λ b, box_area b == 100)%Q bbox) as Ha
    by (repeat constructor).
  split; [reflexivity|]. split; [exact Ha|].
  exact (equal_areas_no_overlap bbox (1 # 2) score 100 eq_refl Ha).
Defined.

(** Inserting a key above all the keys of the list puts it last. *)
Lemma insert_by_last (x : nat * Q) (l : list (nat * Q)) :
  Forall (λ y, snd y < snd x)%Q l → insert_by x l = l ++ [x].
Proof.
  induction 1 as [|y l Hy _ IH]; simpl; [done|].
  destruct (Qle_bool (snd x) (snd y)) eqn:E; [|by rewrite IH].
  apply Qle_bool_iff in E. lra.
Qed.

Lemma sorted_descending (k : nat) (score : list Q) :
  StronglySorted (λ x y, y < x)%Q score →
  foldr insert_by [] (imap (λ i x, (k + i, x)) score)
  = reverse (imap (λ i x, (k + i, x)) score).
Proof.
  revert k. induction score as [|x score IH]; intros k Hs; [done|].
  apply StronglySorted_cons in Hs as [Hx Hs].
  rewrite imap_cons, reverse_cons. simpl.
  assert (imap ((λ i x, (k + i, x)) ∘ S) score
          = imap (λ i x, (S k + i, x)) score) as ->.
  { apply imap_ext. intros; simpl. f_equal. lia. }
  rewrite (IH (S k)) by done. rewrite Nat.add_0_r.
  apply insert_by_last. apply Forall_reverse, Forall_forall.
  intros [i y] (p & z & [= -> ->] & Hz)%elem_of_lookup_imap. simpl.
  rewrite Forall_forall in Hx. apply Hx. by eapply list_elem_of_lookup_2.
Qed.

Lemma score_order_descending_id (score : list Q) :
  StronglySorted (λ x y, y < x)%Q score →
  score_order score = seq 0 (length score).
Proof.
  intros Hs. unfold score_order, argsort, enumerate.
  rewrite (sorted_descending 0) by done.
  rewrite fmap_reverse, reverse_involutive, fmap_imap.
  rewrite <- (list_fmap_id (seq 0 (length score))).
  by rewrite <- (imap_seq_0 score id).
Qed.

(** X12: scores that already are strictly descending leave the
    priority order as the index order, so the call with these scores
    returns what the call without scores returns. *)
Theorem descending_scores_as_unscored (bbox : list box) (thresh : Q)
    (score : list Q) (limit : option Z) :
  length score = length bbox →
  StronglySorted (λ x y, y < x)%Q score →
  _non_maximum_suppression_cpu bbox thresh (Some score) limit
  = _non_maximum_suppression_cpu bbox thresh None limit.
Proof.
  intros Hl Hs.
  rewrite (cpu_greedy bbox thresh (Some score)) by done.
  rewrite (cpu_greedy bbox thresh None) by done.
  simpl. by rewrite score_order_descending_id, Hl by done.
Qed.

Lemma descending_scores_as_unscored_witness :
  let score := [9 # 10; 5 # 10; 1 # 10]%Q in
  length score = length skewed_boxes ∧
  StronglySorted (λ x y, y < x)%Q score ∧
  _non_maximum_suppression_cpu skewed_boxes (1 # 2) (Some score) None
  = _non_maximum_suppression_cpu skewed_boxes (1 # 2) None None.
Proof.
  intros score.
  assert (StronglySorted (λ x y, y < x)%Q score) as Hs
    by (repeat constructor).
  split; [reflexivity|]. split; [exact Hs|].
  exact (descending_scores_as_unscored skewed_boxes (1 # 2) score None
           eq_refl Hs).
Defined.

(** ** The launch grid and the mask it fills *)

(** X13: the number of column blocks the host computes with [np.ceil]
    is the row stride the kernel computes with [DIVUP]; that many tiles
    of 64 boxes cover all boxes, and the last tile is not empty. *)
Theorem launch_grid_covers_boxes (n_bbox : nat) :
  let col_blocks := ceil_div n_bbox 64 in
  DIVUP n_bbox threadsPerBlock = col_blocks ∧
  n_bbox ≤ threadsPerBlock * col_blocks ∧
  threadsPerBlock * col_blocks < n_bbox + threadsPerBlock.
Proof.
  intros col_blocks. split; [apply DIVUP_ceil_div|].
  unfold col_blocks, ceil_div, threadsPerBlock. lia.
Qed.

(** X14: when the kernel's [int] holds every address of the mask, the
    mask the kernel builds decides every pair the reduction asks about:
    for boxes [i] before [j], bit [j mod 64] of the word of row [i] and
    column tile [j / 64] says whether the two boxes overlap at or above
    the threshold. *)
Theorem mask_decides_later_pairs (bbox : list box) (thresh : Q) :
  let n := length bbox in
  let col_blocks := ceil_div n 64 in
  mask_fits_int n →
  ∃ mask,
    nms_kernel col_blocks col_blocks 64 n thresh bbox
               (replicate (n * col_blocks) 0%Z) = Ok mask ∧
    ∀ i j, i < j < n →
      Z.testbit (mask !!! (i * col_blocks + j / 64)) (Z.of_nat (j mod 64))
      = overlaps thresh (bbox !!! i) (bbox !!! j).
Proof.
  intros n col_blocks Hfits.
  destruct (nms_kernel_mask bbox thresh Hfits) as (mask & Hrun & _ & Hw).
  exists mask. split; [done|]. intros i j Hij.
  by apply (mask_row_bit bbox thresh mask Hw).
Qed.

Lemma mask_decides_later_pairs_witness :
  mask_fits_int (length skewed_boxes) ∧
  let n := length skewed_boxes in
  let col_blocks := ceil_div n 64 in
  ∃ mask,
    nms_kernel col_blocks col_blocks 64 n (1 # 2) skewed_boxes
               (replicate (n * col_blocks) 0%Z) = Ok mask ∧
    ∀ i j, i < j < n →
      Z.testbit (mask !!! (i * col_blocks + j / 64)) (Z.of_nat (j mod 64))
      = overlaps (1 # 2) (skewed_boxes !!! i) (skewed_boxes !!! j).
Proof.
  split; [by vm_compute|].
  apply (mask_decides_later_pairs skewed_boxes (1 # 2)). by vm_compute.
Defined.

(** ** The limit *)

Lemma limit_prefix_from_one_witness :
  (1 ≤ 2)%Z ∧
  _non_maximum_suppression_cpu skewed_boxes (1 # 2) (Some skewed_scores)
                               (Some 2%Z)
  = take (Z.to_nat 2)
      <$> _non_maximum_suppression_cpu skewed_boxes (1 # 2)
                                       (Some skewed_scores) None.
Proof.
  split; [lia|].
  apply (limit_prefix_from_one skewed_boxes (1 # 2) (Some skewed_scores) 2).
  lia.
Defined.

(** ** Boxes appended to the input *)

Lemma greedy_app ov todo1 todo2 acc :
  greedy ov None (todo1 ++ todo2) acc
  = greedy ov None todo2 (greedy ov None todo1 acc).
Proof.
  revert acc. induction todo1 as [|x todo1 IH]; intros acc; simpl; [done|].
  by destruct (existsb _ acc).
Qed.

(** X15: without scores and without a limit, boxes appended to the
    input do not change what is decided about the boxes before them: the
    result for the longer input starts with the result for the shorter
    one, and goes on with indices of appended boxes only. *)
Theorem appended_boxes_keep_earlier_result (bbox more : list box)
    (thresh : Q) :
  ∃ result rest,
    _non_maximum_suppression_cpu bbox thresh None None = Ok result ∧
    _non_maximum_suppression_cpu (bbox ++ more) thresh None None
    = Ok (result ++ rest) ∧
    Forall (λ i, length bbox ≤ i) rest.
Proof.
  rewrite !cpu_unscored_overlaps, length_app, seq_app, greedy_app. simpl.
  set (ov := λ k i, overlaps thresh (bbox !!! k) (bbox !!! i)).
  set (ov' := λ k i, overlaps thresh ((bbox ++ more) !!! k)
                              ((bbox ++ more) !!! i)).
  assert (greedy ov' None (seq 0 (length bbox)) []
          = greedy ov None (seq 0 (length bbox)) []) as ->.
  { apply greedy_ext. intros k i Hk%elem_of_seq Hi%elem_of_seq.
    unfold ov', ov. by rewrite !lookup_total_app_l by lia. }
  set (G := greedy ov None (seq 0 (length bbox)) []).
  destruct (greedy_prefix ov' None (seq (length bbox) (length more)) G)
    as [rest Hrest].
  exists G, rest. split; [done|]. split; [by rewrite Hrest|].
  pose proof (greedy_sublist ov' None (seq (length bbox) (length more)) G)
    as Hsub.
  rewrite Hrest in Hsub. apply sublist_app_inv_l in Hsub.
  apply Forall_forall. intros i Hi.
  apply (elem_of_sublist _ _ _ Hi) in Hsub. apply elem_of_seq in Hsub. lia.
Qed.
